(** * ParallelProcessor (utils/parallel.py): a shallow embedding

    The development follows the layout of the Python class:

    - worker and batching helpers: [determine_worker_count], [create_batches];
    - the tenacity wrapper built by [_make_retry_async];
    - the scheduling core: [_async_process_all] with its inner coroutine
      [one], [process_batches] and [parallel_process], as a labelled
      transition system whose steps are the atomic sections of the event
      loop (the code between two suspension points of a task);
    - [_run_asyncio], which runs the coroutine with or without a
      surrounding event loop;
    - the callers: [Oracle.query], [Oracle.query_all] (utils/oracle.py) and
      the batch methods of [BaseAgent] (core/agents/base/base_agent.py).

    Python integers supplied by the caller are [Z]; list positions and the
    completion counter are [nat]; a Python value that may be [None] is an
    [option]; the rate limit (a float only ever compared with 0 and with
    the one unit an item asks of the limiter) is a rational [Qc].

    What lies outside the module is taken by its contract: the process
    function returns a value or raises an [Exception] (the class the
    handlers of [one] and of the retry wrapper name), with any behaviour
    from one invocation to the next; the rate limiter
    [AsyncLimiter(rate, 1)] grants the unit an item asks for, after some
    delay, when the rate is at least 1, and raises ValueError when it is
    less; the logger (utils/logger.py, a RichHandler with [markup=True])
    prints the line it is sent unless the text of the exception formatted
    into the line has a closing tag that matches no open one, and then
    raises MarkupError to its caller, with a text that it refuses in turn;
    the progress observer only records what it is sent ([task_description]
    and [hide_progress] select the observer and nothing else); the
    surrounding event loop does not cancel the call; keyword arguments are
    those of the process function, named apart from the parameters of the
    engine's own functions. A run is followed until the call returns or
    raises; the tasks still under way at that point are cancelled by
    [asyncio.run] and are not followed further. The LLM service answers a
    request with a content or an exception; a float (temperature, top_p)
    is the rational it denotes. *)

From Stdlib Require Import ZArith Lia QArith Qcanon.
From stdpp Require Import base numbers option list gmap strings.

Local Open Scope Z_scope.

(** ** Python results: a value or a raised exception *)

Inductive pyexn := ValueError | TypeError | MarkupError.

Inductive pyresult (A : Type) :=
| Ok (a : A)
| Raised (e : pyexn).
Arguments Ok {A} a.
Arguments Raised {A} e.

Definition pybind {A B} (c : pyresult A) (k : A → pyresult B) : pyresult B :=
  match c with
  | Ok a => k a
  | Raised e => Raised e
  end.

Notation "'do' x <- c ; k" := (pybind c (fun x => k))
  (at level 10, x name, c at level 100, k at level 200).

(** ** Python builtins used by the module *)

(** [range(start, stop, step)] for a positive step: [fuel] bounds the number
    of elements (one per unit of [stop - start] is always enough). *)
Fixpoint range_up (fuel : nat) (i stop step : Z) : list Z :=
  match fuel with
  | O => []
  | S fuel' => if i <? stop then i :: range_up fuel' (i + step) stop step else []
  end.

(** ... and for a negative step. *)
Fixpoint range_down (fuel : nat) (i stop step : Z) : list Z :=
  match fuel with
  | O => []
  | S fuel' => if stop <? i then i :: range_down fuel' (i + step) stop step else []
  end.

(** [range] raises ValueError when the step is zero. *)
Definition py_range (start stop step : Z) : pyresult (list Z) :=
  if step =? 0 then Raised ValueError
  else if 0 <? step then Ok (range_up (Z.to_nat (stop - start)) start stop step)
  else Ok (range_down (Z.to_nat (start - stop)) start stop step).

(** [range(a, b)] (step 1 never raises). *)
Definition py_range1 (a b : Z) : list Z := range_up (Z.to_nat (b - a)) a b 1.

(** Slice bounds: a negative bound counts from the end, then both are
    clamped to [0, len]. *)
Definition slice_index (len i : Z) : Z :=
  let j := if i <? 0 then i + len else i in
  Z.max 0 (Z.min len j).

(** [l[a:b]] *)
Definition py_slice {A} (l : list A) (a b : Z) : list A :=
  let len := Z.of_nat (length l) in
  let a' := slice_index len a in
  let b' := slice_index len b in
  take (Z.to_nat (b' - a')) (drop (Z.to_nat a') l).

(** ** Worker and batching helpers *)

(** [os.cpu_count()] is the number of logical CPUs, or None when it cannot
    be determined; [x or 4] replaces a falsy [x] (None or 0) by 4. *)
Definition cpu_count_or (cpu_count : option positive) (d : Z) : Z :=
  match cpu_count with
  | Some p => if Z.pos p =? 0 then d else Z.pos p
  | None => d
  end.

Definition determine_worker_count (cpu_count : option positive) (workers : option Z) : Z :=
  let default_workers := Z.min (cpu_count_or cpu_count 4 * 2) 128 in
  match workers with
  | None => default_workers
  | Some w => Z.max 1 w
  end.

(** The batch size [create_batches] ends up using, after the two
    adjustments on the total item count. *)
Definition adjusted_batch_size (total batch_size : Z) : Z :=
  if 1000 <? total then Z.max batch_size (total / 50)
  else if total <? 50 then Z.max 1 (Z.max 1 (total / 4))
  else batch_size.

Definition create_batches {A} (items : list A) (batch_size : Z)
  : pyresult (list (list Z * list A)) :=
  let total := Z.of_nat (length items) in
  let batch_size := adjusted_batch_size total batch_size in
  do starts <- py_range 0 total batch_size;
  Ok (map (fun i => (py_range1 i (Z.min (i + batch_size) total),
                     py_slice items i (i + batch_size))) starts).

(** ** The retry wrapper: tenacity's [retry] as configured by [_make_retry_async] *)

(** What one invocation of the process function does: it returns a Python
    value ([None] included) or raises an [Exception]. *)
Inductive outcome (Val Exn : Type) :=
| Ret (v : option Val)
| Exc (e : Exn).
Arguments Ret {Val Exn} v.
Arguments Exc {Val Exn} e.

Inductive retry_next (Val Exn : Type) :=
| Finish (o : outcome Val Exn)
| Retry (attempt : Z).
Arguments Finish {Val Exn} o.
Arguments Retry {Val Exn} attempt.

(** The decision taken after attempt number [attempt] (counted from 1):
    [retry=retry_if_exception_type(Exception)] lets a returned value through,
    [stop=stop_after_attempt(max_retries + 1)] stops once the attempt number
    has reached [max_retries + 1], and [reraise=True] then re-raises the
    exception of that last attempt. *)
Definition retry_decide {Val Exn} (max_retries attempt : Z) (o : outcome Val Exn)
  : retry_next Val Exn :=
  match o with
  | Ret v => Finish (Ret v)
  | Exc e => if max_retries + 1 <=? attempt then Finish (Exc e) else Retry (attempt + 1)
  end.

(** The retry loop run on its own. [func n] is what the [n]-th invocation of
    the wrapped call does; the result pairs the final outcome with the number
    of invocations made. *)
Fixpoint safe_call_loop {Val Exn} (fuel : nat) (max_retries : Z)
    (func : Z → outcome Val Exn) (attempt : Z) : option (outcome Val Exn * Z) :=
  match fuel with
  | O => None
  | S fuel' =>
      match retry_decide max_retries attempt (func attempt) with
      | Finish o => Some (o, attempt)
      | Retry next => safe_call_loop fuel' max_retries func next
      end
  end.

(** [safe_call(item, **kwargs)] for the wrapper of [func]: the process
    function is given as its behaviour per item, keyword arguments and
    invocation number. *)
Definition _make_retry_async {Item KW Val Exn}
    (func : Item → KW → Z → outcome Val Exn) (max_retries : Z)
  : Item → KW → option (outcome Val Exn * Z) :=
  fun item kwargs =>
    safe_call_loop (Z.to_nat (Z.max 1 (max_retries + 1))) max_retries (func item kwargs) 1.

(** ** Keyword arguments *)

(** Python's [bool(x)] and [float(x)] on an object other than None or a number. *)
Class PyObject (Obj : Type) := {
  obj_truthy : Obj → bool;
  obj_float : Obj → pyresult Qc
}.

Inductive kwval (Obj : Type) :=
| KNone
| KNum (q : Qc)
| KObj (o : Obj).
Arguments KNone {Obj}.
Arguments KNum {Obj} q.
Arguments KObj {Obj} o.

Definition kw_truthy `{PyObject Obj} (v : kwval Obj) : bool :=
  match v with
  | KNone => false
  | KNum q => negb (bool_decide (q = 0%Qc))
  | KObj o => obj_truthy o
  end.

(** [v or d] *)
Definition kw_or `{PyObject Obj} (v d : kwval Obj) : kwval Obj :=
  if kw_truthy v then v else d.

(** [float(v)] *)
Definition kw_float `{PyObject Obj} (v : kwval Obj) : pyresult Qc :=
  match v with
  | KNone => Raised TypeError
  | KNum q => Ok q
  | KObj o => obj_float o
  end.

(** ** The scheduling core: [_async_process_all] *)

(** What the logger makes of the text of an exception. [ModernLogger.error]
    hands its message to a RichHandler created with [markup=True], which
    renders the message as console markup before it prints: a text with a
    closing tag that matches no open tag makes it raise MarkupError, out of
    [error] and into the caller. [exn_markup_ok e] tells that the text of
    [e] can be printed. The text of the MarkupError names the offending
    tag, so the logger refuses it in turn. *)
Class PyException (Exn : Type) := {
  exn_markup_ok : Exn → bool
}.

(** A process function that catches every exception raises none. *)
#[export] Instance no_exceptions : PyException Empty_set :=
  {| exn_markup_ok := fun e : Empty_set => match e with end |}.

(** What [except Exception as e] binds in [one]: the exception re-raised by
    the retry wrapper, or the TimeoutError of [asyncio.wait_for]. *)
Inductive failure (Exn : Type) :=
| ProcessError (e : Exn)
| TimeoutError.
Arguments ProcessError {Exn} e.
Arguments TimeoutError {Exn}.

(** Whether the line [one] logs for a failure can be printed; the text of
    the TimeoutError of [asyncio.wait_for] is empty. *)
Definition loggable `{PyException Exn} (e : failure Exn) : bool :=
  match e with
  | ProcessError e => exn_markup_ok e
  | TimeoutError => true
  end.

(** An exception that leaves a task [one]: the ValueError of
    [AsyncLimiter.acquire], raised by [async with limiter] in front of the
    [try], or the MarkupError of the logger, raised inside the handler of
    [one] on the line for the failure [e]. *)
Inductive crash (Exn : Type) :=
| LimiterRaised
| LoggerRaised (e : failure Exn).
Arguments LimiterRaised {Exn}.
Arguments LoggerRaised {Exn} e.

(** Where the coroutine [one(idx, item)] stands. The item is PENDING while it
    waits for the rate limiter or the semaphore, RUNNING from the moment it
    holds the semaphore ([Ready n]: about to make attempt [n], first entry or
    back-off sleep; [Calling n]: attempt [n] of the process function in
    flight), and then SUCCEEDED or FAILED for good. [Refused] is the end of
    a task whose [async with limiter] raised: the item was never started. *)
Inductive phase (Val Exn : Type) :=
| AtLimiter
| AtGate
| Ready (attempt : Z)
| Calling (attempt : Z)
| Succeeded (res : option Val)
| Failed (e : failure Exn)
| Refused.
Arguments AtLimiter {Val Exn}.
Arguments AtGate {Val Exn}.
Arguments Ready {Val Exn} attempt.
Arguments Calling {Val Exn} attempt.
Arguments Succeeded {Val Exn} res.
Arguments Failed {Val Exn} e.
Arguments Refused {Val Exn}.

Definition is_running {Val Exn} (ph : phase Val Exn) : bool :=
  match ph with
  | Ready _ | Calling _ => true
  | _ => false
  end.

Definition is_terminal {Val Exn} (ph : phase Val Exn) : bool :=
  match ph with
  | Succeeded _ | Failed _ => true
  | _ => false
  end.

(** The value the result slot of an item holds: None until the item
    succeeds, the returned value afterwards, None again for a failure. *)
Definition slot_of {Val Exn} (ph : phase Val Exn) : option Val :=
  match ph with
  | Succeeded v => v
  | _ => None
  end.

(** The events of a run: each is one atomic section of the event loop (the
    code between two suspension points), or a completion of the process
    function chosen by the environment. *)
Inductive action (Val Exn : Type) :=
| PassLimiter (i : nat)
| LimiterRaises (i : nat)
| Acquire (i : nat)
| Invoke (i : nat)
| Returns (i : nat) (v : option Val)
| Raises (i : nat) (e : Exn)
| TimesOut (i : nat)
| GatherDone
| GatherRaises.
Arguments PassLimiter {Val Exn} i.
Arguments LimiterRaises {Val Exn} i.
Arguments Acquire {Val Exn} i.
Arguments Invoke {Val Exn} i.
Arguments Returns {Val Exn} i v.
Arguments Raises {Val Exn} i e.
Arguments TimesOut {Val Exn} i.
Arguments GatherDone {Val Exn}.
Arguments GatherRaises {Val Exn}.

Section EngineDefs.
Context {Item Val Exn Obj : Type} `{PyObject Obj} `{PyException Exn}.

(** The arguments of [_async_process_all] that its closure [one] reads. *)
Record engine := {
  e_items : list Item;
  e_workers : Z;
  e_max_retries : Z;
  e_timeout : Z;
  e_rate_limit_per_sec : Qc;
  e_kwargs : gmap string (kwval Obj)
}.

(** One task [one(idx, item)] created from [enumerate(items)]. *)
Record task := {
  t_idx : nat;
  t_item : Item;
  t_phase : phase Val Exn
}.

(** One invocation of [process_func(item, **kwargs)]. *)
Record call := {
  c_idx : nat;
  c_item : Item;
  c_kwargs : gmap string (kwval Obj);
  c_attempt : Z
}.

(** The shared store of one [_async_process_all] call: the tasks, the
    [results] list, the semaphore value and the [completed] counter.
    [st_errors] holds the lines that [one] has had printed by the logger's
    [error] (the index, [max_retries] and exception formatted into each),
    [st_unexpected] the lines printed by the handler around [gather], and
    [st_updates] the [completed] values sent to [progress.update].
    [st_crash] is the first exception that left a task, which is the one
    [gather] raises. The call ends by returning [results]
    ([st_returned]) or by raising the logger's MarkupError ([st_raised]).
    [st_calls] and [st_writes] (position of the writing task, slot written)
    record the invocations of the process function and the assignments to
    [results]; the code keeps no such record, the properties are stated on
    it. *)
Record state := {
  st_tasks : list task;
  st_results : list (option Val);
  st_sem : Z;
  st_completed : nat;
  st_updates : list nat;
  st_errors : list (nat * Z * failure Exn);
  st_calls : list call;
  st_writes : list (nat * nat);
  st_returned : bool;
  st_crash : option (crash Exn);
  st_unexpected : list (crash Exn);
  st_raised : bool
}.

Definition total_items (env : engine) : nat := length (e_items env).

(** [limiter is not None] *)
Definition limited (env : engine) : bool :=
  bool_decide (0 < e_rate_limit_per_sec env)%Qc.

(** [AsyncLimiter(rate_limit_per_sec, 1).acquire()] asks for one unit: it
    raises ValueError when 1 exceeds the limiter's [max_rate], and grants
    the unit, after some delay, otherwise. *)
Definition limiter_grants (env : engine) : bool :=
  bool_decide (1 ≤ e_rate_limit_per_sec env)%Qc.

(** A limiter is made, and refuses every item. *)
Definition limiter_raises (env : engine) : bool :=
  limited env && negb (limiter_grants env).

(** The call has returned or raised. *)
Definition ended (st : state) : bool := st_returned st || st_raised st.

(** [gather] raises the exception of the first task that ends with one. *)
Definition first_crash (c : crash Exn) (st : state) : option (crash Exn) :=
  match st_crash st with
  | Some c0 => Some c0
  | None => Some c
  end.

(** [completed % 10 == 0 or completed == total_items] *)
Definition update_due (total completed : nat) : bool :=
  (completed mod 10 =? 0)%nat || (completed =? total)%nat.

Definition with_phase (t : task) (ph : phase Val Exn) : task :=
  {| t_idx := t_idx t; t_item := t_item t; t_phase := ph |}.

(** A step of task [i] that only moves its program point. *)
Definition move (i : nat) (t : task) (ph : phase Val Exn) (st : state) : state :=
  {| st_tasks := <[i := with_phase t ph]> (st_tasks st);
     st_results := st_results st;
     st_sem := st_sem st;
     st_completed := st_completed st;
     st_updates := st_updates st;
     st_errors := st_errors st;
     st_calls := st_calls st;
     st_writes := st_writes st;
     st_returned := st_returned st;
     st_crash := st_crash st;
     st_unexpected := st_unexpected st;
     st_raised := st_raised st |}.

(** [async with limiter] raises in front of the [try]: the task ends with
    the ValueError, nothing is stored, counted or released. *)
Definition refuse (i : nat) (t : task) (st : state) : state :=
  {| st_tasks := <[i := with_phase t Refused]> (st_tasks st);
     st_results := st_results st;
     st_sem := st_sem st;
     st_completed := st_completed st;
     st_updates := st_updates st;
     st_errors := st_errors st;
     st_calls := st_calls st;
     st_writes := st_writes st;
     st_returned := st_returned st;
     st_crash := first_crash LimiterRaised st;
     st_unexpected := st_unexpected st;
     st_raised := st_raised st |}.

(** The tail of [one]: [results[idx] = slot], then the [finally] block
    (counter and progress update) and the release of the semaphore on
    leaving [async with sem]. No suspension point separates them. The list
    update leaves the list alone when [idx] is out of range, where Python
    would raise IndexError; [slot_in_range] below shows that this never
    happens in a run. *)
Definition complete (env : engine) (i : nat) (t : task) (ph : phase Val Exn)
    (slot : option Val) (st : state) : state :=
  let completed := S (st_completed st) in
  {| st_tasks := <[i := with_phase t ph]> (st_tasks st);
     st_results := <[t_idx t := slot]> (st_results st);
     st_sem := st_sem st + 1;
     st_completed := completed;
     st_updates :=
       if update_due (total_items env) completed
       then st_updates st ++ [completed] else st_updates st;
     st_errors := st_errors st;
     st_calls := st_calls st;
     st_writes := st_writes st ++ [(i, t_idx t)];
     st_returned := st_returned st;
     st_crash := st_crash st;
     st_unexpected := st_unexpected st;
     st_raised := st_raised st |}.

(** [self.error(...)] in the [except] branch has printed its line. *)
Definition log_failure (env : engine) (t : task) (e : failure Exn) (st : state)
  : state :=
  {| st_tasks := st_tasks st;
     st_results := st_results st;
     st_sem := st_sem st;
     st_completed := st_completed st;
     st_updates := st_updates st;
     st_errors := st_errors st ++ [(t_idx t, e_max_retries env, e)];
     st_calls := st_calls st;
     st_writes := st_writes st;
     st_returned := st_returned st;
     st_crash := st_crash st;
     st_unexpected := st_unexpected st;
     st_raised := st_raised st |}.

(** The [except] branch when the logger raises on the line for [e]: the
    assignment [results[idx] = None] is not reached, the [finally] block
    counts the item and the semaphore is released, then the MarkupError
    leaves [one]. *)
Definition escape (env : engine) (i : nat) (t : task) (e : failure Exn)
    (st : state) : state :=
  let completed := S (st_completed st) in
  {| st_tasks := <[i := with_phase t (Failed e)]> (st_tasks st);
     st_results := st_results st;
     st_sem := st_sem st + 1;
     st_completed := completed;
     st_updates :=
       if update_due (total_items env) completed
       then st_updates st ++ [completed] else st_updates st;
     st_errors := st_errors st;
     st_calls := st_calls st;
     st_writes := st_writes st;
     st_returned := st_returned st;
     st_crash := first_crash (LoggerRaised e) st;
     st_unexpected := st_unexpected st;
     st_raised := st_raised st |}.

(** The [except Exception as e] branch: log, then store None. *)
Definition fail (env : engine) (i : nat) (t : task) (e : failure Exn)
    (st : state) : state :=
  if loggable e
  then complete env i t (Failed e) None (log_failure env t e st)
  else escape env i t e st.

Definition acquire (i : nat) (t : task) (st : state) : state :=
  {| st_tasks := <[i := with_phase t (Ready 1)]> (st_tasks st);
     st_results := st_results st;
     st_sem := st_sem st - 1;
     st_completed := st_completed st;
     st_updates := st_updates st;
     st_errors := st_errors st;
     st_calls := st_calls st;
     st_writes := st_writes st;
     st_returned := st_returned st;
     st_crash := st_crash st;
     st_unexpected := st_unexpected st;
     st_raised := st_raised st |}.

Definition invoke (env : engine) (i : nat) (t : task) (n : Z) (st : state) : state :=
  {| st_tasks := <[i := with_phase t (Calling n)]> (st_tasks st);
     st_results := st_results st;
     st_sem := st_sem st;
     st_completed := st_completed st;
     st_updates := st_updates st;
     st_errors := st_errors st;
     st_calls := st_calls st ++
       [{| c_idx := t_idx t; c_item := t_item t;
           c_kwargs := e_kwargs env; c_attempt := n |}];
     st_writes := st_writes st;
     st_returned := st_returned st;
     st_crash := st_crash st;
     st_unexpected := st_unexpected st;
     st_raised := st_raised st |}.

(** Attempt [n] of task [i] ended with outcome [o]: the retry wrapper
    either goes round again (after its back-off sleep) or hands the
    outcome to [one], whose [try] stores the value and whose [except]
    handles the re-raised exception. *)
Definition attempt_done (env : engine) (i : nat) (t : task) (n : Z)
    (o : outcome Val Exn) (st : state) : state :=
  match retry_decide (e_max_retries env) n o with
  | Finish (Ret v) => complete env i t (Succeeded v) v st
  | Finish (Exc e) => fail env i t (ProcessError e) st
  | Retry n' => move i t (Ready n') st
  end.

(** [await asyncio.gather] over all tasks has returned:
    [progress.update(task_id, completed=total_items)], then [return results]. *)
Definition gather_done (env : engine) (st : state) : state :=
  {| st_tasks := st_tasks st;
     st_results := st_results st;
     st_sem := st_sem st;
     st_completed := st_completed st;
     st_updates := st_updates st ++ [total_items env];
     st_errors := st_errors st;
     st_calls := st_calls st;
     st_writes := st_writes st;
     st_returned := true;
     st_crash := st_crash st;
     st_unexpected := st_unexpected st;
     st_raised := st_raised st |}.

(** [await asyncio.gather] has raised the exception [c] of a task, and the
    handler [except Exception as e] formats it into a line for the logger.
    The text of the limiter's ValueError is printed, and the call goes on
    to [return results] as they are; the text of a MarkupError is refused
    again, and the new MarkupError leaves [_async_process_all]. The tasks
    still under way are cancelled when the event loop is closed. *)
Definition gather_raised (env : engine) (c : crash Exn) (st : state) : state :=
  match c with
  | LimiterRaised =>
      {| st_tasks := st_tasks st;
         st_results := st_results st;
         st_sem := st_sem st;
         st_completed := st_completed st;
         st_updates := st_updates st;
         st_errors := st_errors st;
         st_calls := st_calls st;
         st_writes := st_writes st;
         st_returned := true;
         st_crash := st_crash st;
         st_unexpected := st_unexpected st ++ [c];
         st_raised := st_raised st |}
  | LoggerRaised _ =>
      {| st_tasks := st_tasks st;
         st_results := st_results st;
         st_sem := st_sem st;
         st_completed := st_completed st;
         st_updates := st_updates st;
         st_errors := st_errors st;
         st_calls := st_calls st;
         st_writes := st_writes st;
         st_returned := st_returned st;
         st_crash := st_crash st;
         st_unexpected := st_unexpected st;
         st_raised := true |}
  end.

(** One event of the run, when it is enabled. [await asyncio.gather]
    returns once every task has ended, none with an exception
    ([GatherDone]); it raises as soon as a task has ended with one
    ([GatherRaises]), while other tasks may still be under way. No event
    follows the end of the call. *)
Definition step (env : engine) (a : action Val Exn) (st : state) : option state :=
  if ended st then None else
  match a with
  | PassLimiter i =>
      (* async with limiter: pass *)
      t ← st_tasks st !! i;
      match t_phase t with
      | AtLimiter => if limiter_grants env then Some (move i t AtGate st) else None
      | _ => None
      end
  | LimiterRaises i =>
      (* async with limiter: the acquire raises *)
      t ← st_tasks st !! i;
      match t_phase t with
      | AtLimiter => if limiter_grants env then None else Some (refuse i t st)
      | _ => None
      end
  | Acquire i =>
      (* async with sem: a permit is taken when one is free *)
      t ← st_tasks st !! i;
      match t_phase t with
      | AtGate => if 0 <? st_sem st then Some (acquire i t st) else None
      | _ => None
      end
  | Invoke i =>
      (* safe_call starts attempt n: process_func(item, **kwargs) *)
      t ← st_tasks st !! i;
      match t_phase t with
      | Ready n => Some (invoke env i t n st)
      | _ => None
      end
  | Returns i v =>
      t ← st_tasks st !! i;
      match t_phase t with
      | Calling n => Some (attempt_done env i t n (Ret v) st)
      | _ => None
      end
  | Raises i e =>
      t ← st_tasks st !! i;
      match t_phase t with
      | Calling n => Some (attempt_done env i t n (Exc e) st)
      | _ => None
      end
  | TimesOut i =>
      (* asyncio.wait_for(..., timeout=timeout), armed only
         [if timeout and timeout > 0] *)
      t ← st_tasks st !! i;
      match t_phase t with
      | Ready _ | Calling _ =>
          if 0 <? e_timeout env then Some (fail env i t TimeoutError st) else None
      | _ => None
      end
  | GatherDone =>
      (* every task has ended, none with an exception *)
      if forallb (fun t => is_terminal (t_phase t)) (st_tasks st)
      then match st_crash st with
           | None => Some (gather_done env st)
           | Some _ => None
           end
      else None
  | GatherRaises =>
      (* a task has ended with an exception *)
      c ← st_crash st;
      Some (gather_raised env c st)
  end.

Fixpoint run (env : engine) (acts : list (action Val Exn)) (st : state)
  : option state :=
  match acts with
  | [] => Some st
  | a :: acts' =>
      match step env a st with
      | Some st' => run env acts' st'
      | None => None
      end
  end.

(** The state in which [_async_process_all] hands control to the event
    loop: tasks created, nothing run yet. *)
Definition scheduled (env : engine) : state :=
  {| st_tasks :=
       imap (fun i item =>
               {| t_idx := i; t_item := item;
                  t_phase := if limited env then AtLimiter else AtGate |})
            (e_items env);
     st_results := replicate (total_items env) None;
     st_sem := e_workers env;
     st_completed := 0;
     st_updates := [];
     st_errors := [];
     st_calls := [];
     st_writes := [];
     st_returned := false;
     st_crash := None;
     st_unexpected := [];
     st_raised := false |}.

(** The fast path on no items: [return []] before anything is created. *)
Definition returned_empty : state :=
  {| st_tasks := [];
     st_results := [];
     st_sem := 0;
     st_completed := 0;
     st_updates := [];
     st_errors := [];
     st_calls := [];
     st_writes := [];
     st_returned := true;
     st_crash := None;
     st_unexpected := [];
     st_raised := false |}.

(** The synchronous prefix of [_async_process_all];
    [asyncio.Semaphore(workers)] raises ValueError on a negative value. *)
Definition _async_process_all (env : engine) : pyresult state :=
  if (total_items env =? 0)%nat then Ok returned_empty
  else if e_workers env <? 0 then Raised ValueError
  else Ok (scheduled env).

(** [flat_items]: the loop [for _, batch in batches: flat_items.extend(batch)]. *)
Definition flat_items (batches : list (list Z * list Item)) : list Item :=
  foldl (fun acc b => acc ++ b.2) [] batches.

(** [float(kwargs.pop("rate_limit_per_sec", 0) or 0)] *)
Definition rate_limit_of (kwargs : gmap string (kwval Obj)) : pyresult Qc :=
  let popped := default (KNum 0%Qc) (kwargs !! "rate_limit_per_sec"%string) in
  kw_float (kw_or popped (KNum 0%Qc)).

Definition process_batches (batches : list (list Z * list Item)) (workers : Z)
    (max_retries timeout : Z) (kwargs : gmap string (kwval Obj))
  : pyresult (engine * state) :=
  do rate <- rate_limit_of kwargs;
  let kwargs := delete "rate_limit_per_sec"%string kwargs in
  let env := {| e_items := flat_items batches; e_workers := workers;
                e_max_retries := max_retries; e_timeout := timeout;
                e_rate_limit_per_sec := rate; e_kwargs := kwargs |} in
  do st <- _async_process_all env;
  Ok (env, st).

Definition parallel_process (cpu_count : option positive) (items : list Item)
    (workers : option Z) (batch_size max_retries timeout : Z)
    (kwargs : gmap string (kwval Obj)) : pyresult (engine * state) :=
  let workers := determine_worker_count cpu_count workers in
  do batches <- create_batches items batch_size;
  process_batches batches workers max_retries timeout kwargs.

(** *** Notions used to state the properties *)

(** The number of attempts the retry wrapper can make. *)
Definition max_attempts (max_retries : Z) : Z := Z.max 1 (max_retries + 1).

Definition count_where (f : phase Val Exn → bool) (tasks : list task) : nat :=
  length (List.filter (fun t => f (t_phase t)) tasks).

(** The completion counts at which [one] pushes a progress update, among
    the first [n] completions. *)
Definition progress_marks (total n : nat) : list nat :=
  List.filter (update_due total) (seq 1 n).

(** How often the process function has been invoked for position [i]. *)
Definition invocations (i : nat) (calls : list call) : nat :=
  length (List.filter (fun c => (c_idx c =? i)%nat) calls).

(** The events by which the environment ends an attempt on item [i]. *)
Definition concerns (i : nat) (a : action Val Exn) : bool :=
  match a with
  | Returns j _ | Raises j _ | TimesOut j => (j =? i)%nat
  | _ => false
  end.

Definition item_events (acts : list (action Val Exn)) (i : nat)
  : list (action Val Exn) :=
  List.filter (concerns i) acts.

Definition is_raise (a : action Val Exn) : Prop :=
  match a with
  | Raises _ _ => True
  | _ => False
  end.

(** The outcome of processing item [i] in a trace: the value returned by
    the last attempt made on it, None when that attempt raised or was cut
    by the timeout. *)
Definition item_outcome (acts : list (action Val Exn)) (i : nat) : option Val :=
  match last (item_events acts i) with
  | Some (Returns _ v) => v
  | _ => None
  end.

(** The per-item state machine: the moves of one task, with the event that
    makes each of them. *)
Inductive transition (env : engine) (i : nat)
  : phase Val Exn → action Val Exn → phase Val Exn → Prop :=
| T_pass :
    limiter_grants env = true →
    transition env i AtLimiter (PassLimiter i) AtGate
| T_refuse :
    limiter_grants env = false →
    transition env i AtLimiter (LimiterRaises i) Refused
| T_acquire : transition env i AtGate (Acquire i) (Ready 1)
| T_invoke n : transition env i (Ready n) (Invoke i) (Calling n)
| T_return n v : transition env i (Calling n) (Returns i v) (Succeeded v)
| T_retry n e :
    n < e_max_retries env + 1 →
    transition env i (Calling n) (Raises i e) (Ready (n + 1))
| T_exhaust n e :
    e_max_retries env + 1 ≤ n →
    transition env i (Calling n) (Raises i e) (Failed (ProcessError e))
| T_timeout ph :
    is_running ph = true → 0 < e_timeout env →
    transition env i ph (TimesOut i) (Failed TimeoutError).

(** The phases entered through the assignment [results[idx] = ...]: a
    success, and a failure whose line the logger has printed. *)
Definition stored (ph : phase Val Exn) : bool :=
  match ph with
  | Succeeded _ => true
  | Failed e => loggable e
  | _ => false
  end.

(** The exception, if any, with which a task leaves [one] on entering a
    phase. *)
Definition leaves_with (ph : phase Val Exn) : option (crash Exn) :=
  match ph with
  | Refused => Some LimiterRaised
  | Failed e => if loggable e then None else Some (LoggerRaised e)
  | _ => None
  end.

(** What a move of task [i] to phase [ph'] does to the store. *)
Definition effect (env : engine) (i : nat) (t : task) (ph' : phase Val Exn)
    (st : state) : state :=
  let done := is_terminal ph' in
  {| st_tasks := <[i := with_phase t ph']> (st_tasks st);
     st_results :=
       if stored ph' then <[t_idx t := slot_of ph']> (st_results st) else st_results st;
     st_sem := st_sem st + Z.b2z (is_running (t_phase t)) - Z.b2z (is_running ph');
     st_completed := if done then S (st_completed st) else st_completed st;
     st_updates :=
       if done && update_due (total_items env) (S (st_completed st))
       then st_updates st ++ [S (st_completed st)] else st_updates st;
     st_errors :=
       match ph' with
       | Failed e =>
           if loggable e then st_errors st ++ [(t_idx t, e_max_retries env, e)]
           else st_errors st
       | _ => st_errors st
       end;
     st_calls :=
       match ph' with
       | Calling n =>
           st_calls st ++ [{| c_idx := t_idx t; c_item := t_item t;
                              c_kwargs := e_kwargs env; c_attempt := n |}]
       | _ => st_calls st
       end;
     st_writes := if stored ph' then st_writes st ++ [(i, t_idx t)] else st_writes st;
     st_returned := st_returned st;
     st_crash :=
       match leaves_with ph' with
       | Some c => first_crash c st
       | None => st_crash st
       end;
     st_unexpected := st_unexpected st;
     st_raised := st_raised st |}.

(** A bound on the events a task can still take part in. *)
Definition phase_weight (max_retries : Z) (ph : phase Val Exn) : nat :=
  let a := max_attempts max_retries in
  match ph with
  | AtLimiter => Z.to_nat (2 * a + 2)
  | AtGate => Z.to_nat (2 * a + 1)
  | Ready n => Z.to_nat (2 * (a - n) + 2)
  | Calling n => Z.to_nat (2 * (a - n) + 1)
  | Succeeded _ | Failed _ | Refused => 0
  end.

Definition weight (env : engine) (st : state) : nat :=
  sum_list_with (fun t => phase_weight (e_max_retries env) (t_phase t)) (st_tasks st)
  + (if ended st then 0 else 1).

(** No run of [env] has more events than this. *)
Definition run_bound (env : engine) : nat :=
  total_items env * Z.to_nat (2 * max_attempts (e_max_retries env) + 2) + 1.

(** *** Invariants of a run *)

(** The task list mirrors [enumerate(items)] and the result list the
    phases of the tasks. *)
Record shape_inv (env : engine) (st : state) : Prop := {
  shape_tasks : length (st_tasks st) = total_items env;
  shape_idx : ∀ i t, st_tasks st !! i = Some t →
                t_idx t = i ∧ e_items env !! i = Some (t_item t);
  shape_results : st_results st = (fun t => slot_of (t_phase t)) <$> st_tasks st
}.

(** The call has returned from the [try] around [gather], not from its
    handler. *)
Definition returned_normally (st : state) : bool :=
  st_returned st && negb (bool_decide (is_Some (st_crash st))).

(** Semaphore, counter and observer. *)
Record counters_inv (env : engine) (st : state) : Prop := {
  cnt_sem : st_sem st + Z.of_nat (count_where is_running (st_tasks st)) = e_workers env;
  cnt_completed : st_completed st = count_where is_terminal (st_tasks st);
  cnt_updates :
    st_updates st =
      progress_marks (total_items env) (st_completed st)
      ++ (if returned_normally st then [total_items env] else []);
  cnt_returned :
    returned_normally st = true →
    count_where is_terminal (st_tasks st) = length (st_tasks st)
}.

(** The exceptions that have left the tasks, and how the call ended. *)
Record crash_inv (env : engine) (st : state) : Prop := {
  crash_limited : ∀ i t, st_tasks st !! i = Some t →
    t_phase t = AtLimiter → limited env = true;
  crash_mode : ∀ i t, st_tasks st !! i = Some t →
    if limiter_raises env
    then t_phase t = AtLimiter ∨ t_phase t = Refused
    else t_phase t ≠ Refused;
  crash_none : st_crash st = None →
    ∀ i t, st_tasks st !! i = Some t → leaves_with (t_phase t) = None;
  crash_limiter : st_crash st = Some LimiterRaised → limiter_raises env = true;
  crash_logger : ∀ e, st_crash st = Some (LoggerRaised e) →
    loggable e = false ∧ ∃ i t, st_tasks st !! i = Some t ∧ t_phase t = Failed e;
  crash_returned : st_returned st = true →
    st_raised st = false ∧
    (st_crash st = None ∨ st_crash st = Some LimiterRaised);
  crash_raised : st_raised st = true →
    ∃ e, st_crash st = Some (LoggerRaised e);
  crash_unexpected :
    st_unexpected st =
      match st_crash st with
      | Some LimiterRaised => if st_returned st then [LimiterRaised] else []
      | _ => []
      end
}.

(** Attempt numbers against the invocations made so far. *)
Definition attempts_ok (max_retries : Z) (ph : phase Val Exn) (made : nat) : Prop :=
  match ph with
  | AtLimiter | AtGate => made = 0%nat
  | Ready n => 1 ≤ n ≤ max_attempts max_retries ∧ Z.of_nat made = n - 1
  | Calling n => 1 ≤ n ≤ max_attempts max_retries ∧ Z.of_nat made = n
  | Succeeded _ => 1 ≤ Z.of_nat made ≤ max_attempts max_retries
  | Failed (ProcessError _) => Z.of_nat made = max_attempts max_retries
  | Failed TimeoutError => Z.of_nat made ≤ max_attempts max_retries
  | Refused => made = 0%nat
  end.

Record calls_inv (env : engine) (st : state) : Prop := {
  calls_attempts : ∀ i t, st_tasks st !! i = Some t →
    attempts_ok (e_max_retries env) (t_phase t) (invocations i (st_calls st));
  calls_args : ∀ c, c ∈ st_calls st →
    c_kwargs c = e_kwargs env ∧ e_items env !! c_idx c = Some (c_item c)
}.

(** The error log and the writes to [results]. *)
Record logs_inv (env : engine) (st : state) : Prop := {
  logs_failed : ∀ i t e, st_tasks st !! i = Some t → t_phase t = Failed e →
    loggable e = true → (i, e_max_retries env, e) ∈ st_errors st;
  logs_errors : ∀ j m e, (j, m, e) ∈ st_errors st →
    m = e_max_retries env ∧ loggable e = true ∧
    ∃ t, st_tasks st !! j = Some t ∧ t_phase t = Failed e;
  logs_writes : ∀ p s, (p, s) ∈ st_writes st →
    p = s ∧ ∃ t, st_tasks st !! p = Some t ∧ stored (t_phase t) = true;
  logs_written : ∀ i t, st_tasks st !! i = Some t → stored (t_phase t) = true →
    (i, i) ∈ st_writes st;
  logs_once : NoDup (st_writes st).*2
}.

(** The phase of a task against the events of the trace that concern it:
    attempts that raised, closed for a settled item by the event that
    settled it. *)
Definition ends_with (evs : list (action Val Exn)) (final : action Val Exn) : Prop :=
  ∃ evs', evs = evs' ++ [final] ∧ Forall is_raise evs'.

Definition trace_agrees (i : nat) (ph : phase Val Exn)
    (evs : list (action Val Exn)) : Prop :=
  match ph with
  | AtLimiter | AtGate => evs = []
  | Ready _ | Calling _ => Forall is_raise evs
  | Succeeded v => ends_with evs (Returns i v)
  | Failed (ProcessError e) => ends_with evs (Raises i e)
  | Failed TimeoutError => ends_with evs (TimesOut i)
  | Refused => evs = []
  end.

Definition trace_inv (acts : list (action Val Exn)) (st : state) : Prop :=
  ∀ i t, st_tasks st !! i = Some t → trace_agrees i (t_phase t) (item_events acts i).


(** *** The sequential reference *)






End EngineDefs.

(** *** Further notions: events of one item, waiting items *)

Section TraceNotions.
Context {Val Exn : Type}.

(** The attempts on item [i] that ended with an exception. *)
Definition raised_by (i : nat) (a : action Val Exn) : bool :=
  match a with
  | Raises j _ => (j =? i)%nat
  | _ => false
  end.

Definition raises (acts : list (action Val Exn)) (i : nat) : nat :=
  length (List.filter (raised_by i) acts).

(** The passages of item [i] through [async with limiter]. *)
Definition passed_by (i : nat) (a : action Val Exn) : bool :=
  match a with
  | PassLimiter j => (j =? i)%nat
  | _ => false
  end.

Definition limiter_passes (acts : list (action Val Exn)) (i : nat) : nat :=
  length (List.filter (passed_by i) acts).


Definition at_limiter (ph : phase Val Exn) : bool :=
  match ph with
  | AtLimiter => true
  | _ => false
  end.

(** PENDING: in front of the limiter or of the semaphore. *)
Definition is_waiting (ph : phase Val Exn) : bool :=
  match ph with
  | AtLimiter | AtGate => true
  | _ => false
  end.

(** The invocations made on an item against the exceptions it raised:
    every invocation but the one in flight, the one that returned or the
    one cut by the timeout has ended with an exception. *)
Definition retry_agrees (ph : phase Val Exn) (made raised : nat) : Prop :=
  match ph with
  | AtLimiter | AtGate => made = 0%nat ∧ raised = 0%nat
  | Ready _ => made = raised
  | Calling _ | Succeeded _ => made = S raised
  | Failed (ProcessError _) => made = raised
  | Failed TimeoutError => (raised ≤ made ≤ S raised)%nat
  | Refused => made = 0%nat ∧ raised = 0%nat
  end.
End TraceNotions.

Section RunNotions.
Context {Item Val Exn Obj : Type} `{PyObject Obj} `{PyException Exn}.

Definition retry_inv (acts : list (action Val Exn)) (st : @state Item Val Exn Obj)
  : Prop :=
  ∀ i, match st_tasks st !! i with
       | Some t => retry_agrees (t_phase t) (invocations i (st_calls st)) (raises acts i)
       | None => invocations i (st_calls st) = 0%nat ∧ raises acts i = 0%nat
       end.

(** An item still in front of the limiter, or turned away by it, has not
    passed it; any other has passed it once when there is a limiter, and
    never otherwise. *)
Definition limiter_inv (env : @engine Item Obj) (acts : list (action Val Exn))
    (st : @state Item Val Exn Obj) : Prop :=
  ∀ i, match st_tasks st !! i with
       | Some t =>
           match t_phase t with
           | AtLimiter => limited env = true ∧ limiter_passes acts i = 0%nat
           | Refused => limiter_raises env = true ∧ limiter_passes acts i = 0%nat
           | _ => limiter_passes acts i = if limited env then 1%nat else 0%nat
           end
       | None => limiter_passes acts i = 0%nat
       end.
End RunNotions.

(** ** Running the coroutine: [_run_asyncio] *)



(** ** The LLM client: [Oracle] (utils/oracle.py) *)

(** A Python number where the code takes an int or a float; a float is the
    rational it denotes (it is only tested for zero and truncated). *)
Inductive pynum :=
| PInt (n : Z)
| PFloat (q : Qc).

(** [bool(x)] *)
Definition num_truthy (x : pynum) : bool :=
  match x with
  | PInt n => negb (n =? 0)
  | PFloat q => negb (bool_decide (q = 0%Qc))
  end.

(** [int(x)]: a float is truncated towards zero. *)
Definition py_int (x : pynum) : Z :=
  match x with
  | PInt n => n
  | PFloat q => Z.quot (Qnum q) (Z.pos (Qden q))
  end.

(** [x or d] for an optional number. *)
Definition num_or (x : option pynum) (d : pynum) : pynum :=
  match x with
  | Some n => if num_truthy n then n else d
  | None => d
  end.

(** The arguments of one [chat.completions.create] call; [r_logprobs] is
    None when the argument is not passed. *)
Record request := {
  r_model : string;
  r_system : string;
  r_user : string;
  r_temperature : Qc;
  r_top_p : Qc;
  r_logprobs : option bool
}.

(** What the body of a [try] comes to: a string, or an exception. *)
Inductive reply (Exn : Type) :=
| Text (s : string)
| Failure (e : Exn).
Arguments Text {Exn} s.
Arguments Failure {Exn} e.

(** [try: return body  except Exception as e: return handler(e)], with the
    requests sent meanwhile. *)
Definition try_except {Exn} (body : list request * reply Exn) (handler : Exn → string)
  : list request * string :=
  match body with
  | (sent, Text s) => (sent, s)
  | (sent, Failure e) => (sent, handler e)
  end.

Section OracleDefs.
Context {Exn Obj : Type} `{PyObject Obj}.

(** The service behind [self._client]: for a request, the content of
    [completion.choices[0].message] (a string or None), or the exception
    that the call or the access to its first choice raises. [str] is
    Python's [str(e)], [model] is [self.model]. *)
Variable create : request → outcome string Exn.
Variable str : Exn → string.
Variable model : string.

Definition _query_openai (prompt_sys prompt_user : string) (temp top_p : Qc)
    (logprobs : bool) : list request * reply Exn :=
  let first :=
    {| r_model := model; r_system := prompt_sys; r_user := prompt_user;
       r_temperature := temp; r_top_p := top_p; r_logprobs := Some logprobs |} in
  match create first with
  | Ret content => ([first], Text (default EmptyString content))
  | Exc _ =>
      (* retry without logprobs *)
      let second :=
        {| r_model := model; r_system := prompt_sys; r_user := prompt_user;
           r_temperature := temp; r_top_p := top_p; r_logprobs := None |} in
      match create second with
      | Ret content => ([first; second], Text (default EmptyString content))
      | Exc e => ([first; second], Failure e)
      end
  end.

(** [Oracle.query]; [query_key] is accepted and not used. *)
Definition query (prompt_sys prompt_user : string) (temp top_p : Qc)
    (logprobs : bool) (query_key : option string) : list request * string :=
  try_except (_query_openai prompt_sys prompt_user temp top_p logprobs)
             (fun e => "QUERY_FAILED: " +:+ str e).

(** [query_items]: every prompt with its key, None where
    [query_key_list] is too short. *)
Definition query_items (prompt_user_all : list string)
    (query_key_list : option (list string)) : list (string * option string) :=
  let query_key_list := default [] query_key_list in
  imap (fun i prompt =>
          (prompt, if (i <? length query_key_list)%nat then query_key_list !! i else None))
       prompt_user_all.

(** The closure [process_func] of [query_all], with [prompt_sys], [temp]
    and [top_p] bound at its definition. *)
Definition process_func (prompt_sys : string) (temp top_p : Qc)
    (item : string * option string) : list request * string :=
  let '(prompt, key) := item in
  try_except
    (let '(sent, s) := query prompt_sys prompt temp top_p false key in (sent, Text s))
    (fun e => "QUERY_FAILED: " +:+ str e).

(** [query_all]: the process function it builds and the
    [parallel_process] call it makes. [determine_worker_count] converts
    the count it is given with [int]; the conversion is applied here,
    where the number is handed over. The keyword arguments of [query_all]
    are not passed on. [process_func] catches every [Exception] and
    returns its text, so in the run that is started no attempt ends with
    an exception of the process function: the exception type of the run
    is empty. *)
Definition query_all (cpu_count : option positive) (prompt_sys : string)
    (prompt_user_all : list string) (workers : option pynum) (temp top_p : Qc)
    (query_key_list : option (list string)) (batch_size max_retries timeout : Z)
    (kwargs : gmap string (kwval Obj))
  : pyresult ((string * option string → list request * string) *
              (@engine (string * option string) Obj *
               @state (string * option string) string Empty_set Obj)) :=
  let query_items := query_items prompt_user_all query_key_list in
  let process_func := process_func prompt_sys temp top_p in
  let workers := num_or workers (PInt (Z.min 32 (cpu_count_or cpu_count 4 * 4))) in
  do started <- parallel_process cpu_count query_items (Some (py_int workers)) batch_size
                  max_retries timeout ∅;
  Ok (process_func, started).

(** ** Agents: [BaseAgent] (core/agents/base/base_agent.py) *)

(** The methods of an agent as [__init__] leaves it: [_oracle] is the
    [Oracle] for the agent's model, so the guards on it do not fire.
    [agent_query] is [BaseAgent.query]. [query_batch] hands [temperature]
    over as the third positional argument of [query_all], which is
    [workers]. *)
Definition agent_query (system_prompt user_prompt : string) (temperature : Qc)
  : list request * string :=
  query system_prompt user_prompt temperature (Q2Qc (9 # 10)) false None.


Definition query_batch (cpu_count : option positive) (system_prompt : string)
    (user_prompts : list string) (temperature : Qc) :=
  query_all cpu_count system_prompt user_prompts (Some (PFloat temperature))
    0%Qc (Q2Qc (9 # 10)) None 10 2 3000 ∅.


End OracleDefs.

(** The attempts of the process function end by returning a string, or
    are cut by the timeout: what a run looks like when the process
    function is one that, like [process_func], catches every exception. *)
Definition returns_text {Exn} (a : action string Exn) : Prop :=
  match a with
  | Raises _ _ | Returns _ None => False
  | _ => True
  end.

(** ** A sample call, for the worked examples *)

(** No keyword argument of the sample is an object. *)
#[export] Instance no_objects : PyObject Empty_set :=
  {| obj_truthy := fun o : Empty_set => match o with end;
     obj_float := fun o : Empty_set => match o with end |}.

(** The exceptions of the samples are numbered; the text of number 13 has
    a closing tag that matches no open one, the texts of the others are
    plain. *)
#[export] Instance sample_exceptions : PyException nat :=
  {| exn_markup_ok := fun e => negb (e =? 13)%nat |}.

Definition sample_items : list nat := [10; 20; 30]%nat.

Definition sample_kwargs : gmap string (kwval Empty_set) :=
  <["rate_limit_per_sec"%string := KNum (Q2Qc 2)]>
    (<["temperature"%string := KNum 0%Qc]> ∅).

(** [parallel_process(sample_items, f, workers=2, batch_size=20,
    max_retries=1, timeout=5, rate_limit_per_sec=2, temperature=0)] on a
    machine with 4 CPUs. *)
Definition sample_call : pyresult (@engine nat Empty_set * @state nat nat nat Empty_set) :=
  parallel_process (Some 4%positive) sample_items (Some 2) 20 1 5 sample_kwargs.

(** The environment of that call, as [process_batches] builds it. *)
Definition sample_env : @engine nat Empty_set :=
  {| e_items := sample_items; e_workers := 2; e_max_retries := 1; e_timeout := 5;
     e_rate_limit_per_sec := Q2Qc 2;
     e_kwargs := delete "rate_limit_per_sec"%string sample_kwargs |}.

(** Item 2 succeeds with 5 at once, item 0 raises twice (7, then 8), item 1
    is cut by the timeout during its first attempt. *)
Definition sample_trace : list (action nat nat) :=
  [PassLimiter 0; PassLimiter 1; PassLimiter 2; Acquire 2; Acquire 0;
   Invoke 2; Invoke 0; Raises 0 7; Returns 2 (Some 5); Acquire 1;
   Invoke 0; Raises 0 8; Invoke 1; TimesOut 1; GatherDone]%nat.

(** The same, stopped while items 0 and 1 are both in flight. *)
Definition sample_prefix : list (action nat nat) :=
  [PassLimiter 0; PassLimiter 1; PassLimiter 2; Acquire 2; Acquire 0;
   Invoke 2; Invoke 0; Raises 0 7; Returns 2 (Some 5); Acquire 1;
   Invoke 0; Invoke 1]%nat.

(** All three succeed, item 0 by returning None. *)
Definition sample_trace_none : list (action nat nat) :=
  [PassLimiter 0; PassLimiter 1; PassLimiter 2; Acquire 0; Invoke 0;
   Returns 0 None; Acquire 1; Invoke 1; Returns 1 (Some 4); Acquire 2;
   Invoke 2; Returns 2 (Some 5); GatherDone]%nat.

(** Items 1 and 2 as before, item 0 raising on both of its attempts. *)
Definition sample_trace_poison : list (action nat nat) :=
  [PassLimiter 0; PassLimiter 1; PassLimiter 2; Acquire 0; Invoke 0;
   Raises 0 7; Acquire 1; Invoke 1; Returns 1 (Some 4); Invoke 0; Raises 0 8;
   Acquire 2; Invoke 2; Returns 2 (Some 5); GatherDone]%nat.

(** A process function that fails twice on every item, then returns the item. *)
Definition sample_flaky (item : nat) (_ : unit) (attempt : Z) : outcome nat nat :=
  if attempt <? 3 then Exc (Z.to_nat attempt) else Ret (Some item).

(** The states these traces lead to. *)
Definition sample_final : @state nat nat nat Empty_set :=
  default (scheduled sample_env) (run sample_env sample_trace (scheduled sample_env)).

Definition sample_midway : @state nat nat nat Empty_set :=
  default (scheduled sample_env) (run sample_env sample_prefix (scheduled sample_env)).

Definition sample_final_none : @state nat nat nat Empty_set :=
  default (scheduled sample_env) (run sample_env sample_trace_none (scheduled sample_env)).

Definition sample_final_poison : @state nat nat nat Empty_set :=
  default (scheduled sample_env) (run sample_env sample_trace_poison (scheduled sample_env)).

(** The events that finish the run from [sample_midway]. *)
Definition sample_rest : list (action nat nat) :=
  [Raises 0 8; TimesOut 1; GatherDone]%nat.

Definition sample_late : @state nat nat nat Empty_set :=
  default sample_midway (run sample_env sample_rest sample_midway).

(** Both permits taken, item 1 waiting at the semaphore. *)
Definition sample_gate : list (action nat nat) :=
  [PassLimiter 0; PassLimiter 1; PassLimiter 2; Acquire 2; Acquire 0]%nat.

Definition sample_gate_full : @state nat nat nat Empty_set :=
  default (scheduled sample_env) (run sample_env sample_gate (scheduled sample_env)).

(** The sample call with [timeout=0]. *)
Definition sample_env_untimed : @engine nat Empty_set :=
  {| e_items := sample_items; e_workers := 2; e_max_retries := 1; e_timeout := 0;
     e_rate_limit_per_sec := Q2Qc 2;
     e_kwargs := delete "rate_limit_per_sec"%string sample_kwargs |}.

(** The sample call with [workers=0], as [process_batches] accepts it. *)
Definition sample_env_starved : @engine nat Empty_set :=
  {| e_items := sample_items; e_workers := 0; e_max_retries := 1; e_timeout := 5;
     e_rate_limit_per_sec := Q2Qc 2;
     e_kwargs := delete "rate_limit_per_sec"%string sample_kwargs |}.

Definition sample_passes : list (action nat nat) :=
  [PassLimiter 0; PassLimiter 1; PassLimiter 2]%nat.

Definition sample_stuck : @state nat nat nat Empty_set :=
  default (scheduled sample_env_starved)
          (run sample_env_starved sample_passes (scheduled sample_env_starved)).





(** Item 0 raises twice, the second time with the exception whose text the
    logger refuses, while item 1 is in flight and item 2 waits. *)
Definition sample_trace_markup : list (action nat nat) :=
  [PassLimiter 0; PassLimiter 1; PassLimiter 2; Acquire 0; Invoke 0; Raises 0 7;
   Acquire 1; Invoke 1; Invoke 0; Raises 0 13; GatherRaises]%nat.

Definition sample_final_markup : @state nat nat nat Empty_set :=
  default (scheduled sample_env)
          (run sample_env sample_trace_markup (scheduled sample_env)).

(** A service that rejects the [logprobs] argument and an empty prompt. *)
Definition sample_create (r : request) : outcome string nat :=
  match r_logprobs r with
  | Some _ => Exc 1%nat
  | None => if decide (r_user r = EmptyString) then Exc 2%nat
            else Ret (Some ("re: " +:+ r_user r))
  end.

Definition sample_str (e : nat) : string :=
  match e with
  | 1%nat => "logprobs not supported"
  | _ => "empty prompt"
  end.

Definition sample_prompts : list string := ["hello"; "bye"]%string.

(** The environment of [query_all("be brief", sample_prompts, workers=2,
    rate_limit_per_sec=2, temperature=0)]. *)
Definition sample_query_env : @engine (string * option string) Empty_set :=
  {| e_items := [("hello", None); ("bye", None)]%string; e_workers := 2;
     e_max_retries := 2; e_timeout := 3000; e_rate_limit_per_sec := 0%Qc;
     e_kwargs := ∅ |}.

(** The first prompt is answered, the second is cut by the timeout. *)
Definition sample_query_trace : list (action string Empty_set) :=
  [Acquire 0; Acquire 1; Invoke 0; Invoke 1; Returns 0 (Some "re: hello"%string);
   TimesOut 1; GatherDone]%nat.

Definition sample_query_final
  : @state (string * option string) string Empty_set Empty_set :=
  default (scheduled sample_query_env)
          (run sample_query_env sample_query_trace (scheduled sample_query_env)).

(** * Properties *)

(** ** Worker count and batching *)

Lemma adjusted_batch_size_cases (total batch_size : Z) :
  (1000 < total → adjusted_batch_size total batch_size = Z.max batch_size (total / 50)) ∧
  (total < 50 → adjusted_batch_size total batch_size = Z.max 1 (total / 4)) ∧
  (50 ≤ total ≤ 1000 → adjusted_batch_size total batch_size = batch_size).
Proof.
  unfold adjusted_batch_size.
  destruct (Z.ltb_spec 1000 total), (Z.ltb_spec total 50); repeat split; intros; lia.
Qed.

(** The adjusted size is usable (at least 1) exactly when the requested one
    is, or the item count lies outside [50, 1000]; in particular for the
    default [batch_size=20]. *)
Lemma adjusted_batch_size_usable (total batch_size : Z) :
  0 ≤ total →
  1 ≤ adjusted_batch_size total batch_size ↔
  1 ≤ batch_size ∨ total < 50 ∨ 1000 < total.
Proof.
  intros Htotal. unfold adjusted_batch_size.
  destruct (Z.ltb_spec 1000 total), (Z.ltb_spec total 50); try lia.
  assert (20 ≤ total / 50) by (apply Z.div_le_lower_bound; lia). lia.
Qed.

Lemma range_up_lookup (step stop : Z) :
  1 ≤ step →
  ∀ (fuel : nat) (i : Z) (k : nat),
    (Z.to_nat (stop - i) ≤ fuel)%nat →
    range_up fuel i stop step !! k =
      if i + Z.of_nat k * step <? stop then Some (i + Z.of_nat k * step) else None.
Proof.
  intros Hstep fuel. induction fuel as [|fuel IH]; intros i k Hfuel; simpl;
    assert (0 ≤ Z.of_nat k * step) by (apply Z.mul_nonneg_nonneg; lia).
  - rewrite lookup_nil. destruct (Z.ltb_spec (i + Z.of_nat k * step) stop); [lia | done].
  - destruct (Z.ltb_spec i stop) as [Hi|Hi].
    + destruct k as [|k]; simpl.
      * replace (i + Z.of_nat 0 * step) with i by lia.
        destruct (Z.ltb_spec i stop); [done | lia].
      * rewrite IH by lia.
        replace (i + Z.of_nat (S k) * step) with (i + step + Z.of_nat k * step) by lia.
        done.
    + rewrite lookup_nil.
      destruct (Z.ltb_spec (i + Z.of_nat k * step) stop); [lia | done].
Qed.

Lemma range_up_unit (fuel : nat) (a b : Z) :
  (Z.to_nat (b - a) ≤ fuel)%nat →
  range_up fuel a b 1 = (fun k => a + Z.of_nat k) <$> seq 0 (Z.to_nat (b - a)).
Proof.
  revert a. induction fuel as [|fuel IH]; intros a Hfuel; simpl.
  - replace (Z.to_nat (b - a)) with 0%nat by lia. done.
  - destruct (Z.ltb_spec a b) as [Hab|Hab].
    + replace (Z.to_nat (b - a)) with (S (Z.to_nat (b - (a + 1)))) by lia.
      rewrite IH by lia. simpl. f_equal; [lia|].
      rewrite <- fmap_S_seq, <- list_fmap_compose.
      apply list_fmap_ext. intros ? k ?. simpl. lia.
    + replace (Z.to_nat (b - a)) with 0%nat by lia. done.
Qed.

Lemma py_range1_seq (a b : Z) :
  py_range1 a b = (fun k => a + Z.of_nat k) <$> seq 0 (Z.to_nat (b - a)).
Proof. unfold py_range1. by apply range_up_unit. Qed.

Lemma py_range1_app (a b c : Z) :
  a ≤ b → b ≤ c → py_range1 a b ++ py_range1 b c = py_range1 a c.
Proof.
  intros Hab Hbc. rewrite !py_range1_seq.
  replace (Z.to_nat (c - a)) with (Z.to_nat (b - a) + Z.to_nat (c - b))%nat by lia.
  rewrite seq_app, fmap_app. f_equal.
  replace (0 + Z.to_nat (b - a))%nat with (Z.to_nat (b - a) + 0)%nat by lia.
  rewrite <- fmap_add_seq, <- list_fmap_compose.
  apply list_fmap_ext. intros ? k ?. simpl. lia.
Qed.

Lemma py_range1_from_zero (n : nat) :
  py_range1 0 (Z.of_nat n) = Z.of_nat <$> seq 0 n.
Proof.
  rewrite py_range1_seq. replace (Z.to_nat (Z.of_nat n - 0)) with n by lia.
  apply list_fmap_ext. intros ? k ?. lia.
Qed.

Lemma py_slice_forward {A} (l : list A) (a b : Z) :
  0 ≤ a → a ≤ b →
  py_slice l a b = take (Z.to_nat (b - a)) (drop (Z.to_nat a) l).
Proof.
  intros Ha Hab. unfold py_slice, slice_index.
  destruct (Z.ltb_spec a 0); [lia|]. destruct (Z.ltb_spec b 0); [lia|].
  destruct (Z.le_gt_cases (Z.of_nat (length l)) a) as [Hlen|Hlen].
  - rewrite !drop_ge by lia. by rewrite !take_nil.
  - replace (Z.to_nat (0 `max` (Z.of_nat (length l) `min` a))) with (Z.to_nat a) by lia.
    destruct (Z.le_gt_cases b (Z.of_nat (length l))).
    + f_equal. lia.
    + rewrite !take_ge; [done| |]; rewrite length_drop; lia.
Qed.

Section Batches.
Context {A : Type} (items : list A) (size : Z).
Hypothesis size_pos : 1 ≤ size.

Local Abbreviation total := (Z.of_nat (length items)).

Lemma batches_cover_items (fuel : nat) (i : Z) :
  0 ≤ i → (Z.to_nat (total - i) ≤ fuel)%nat →
  concat ((fun i => py_slice items i (i + size)) <$> range_up fuel i total size)
  = drop (Z.to_nat i) items.
Proof.
  revert i. induction fuel as [|fuel IH]; intros i Hi Hfuel; simpl.
  - rewrite drop_ge; [done | lia].
  - destruct (Z.ltb_spec i total) as [Hlt|Hge].
    + simpl. rewrite IH by lia. rewrite py_slice_forward by lia.
      replace (i + size - i) with size by lia.
      replace (Z.to_nat (i + size)) with (Z.to_nat i + Z.to_nat size)%nat by lia.
      rewrite <- drop_drop. apply take_drop.
    + rewrite drop_ge; [done | lia].
Qed.

Lemma batches_cover_indices (fuel : nat) (i : Z) :
  0 ≤ i → i ≤ total → (Z.to_nat (total - i) ≤ fuel)%nat →
  concat ((fun i => py_range1 i (Z.min (i + size) total)) <$> range_up fuel i total size)
  = py_range1 i total.
Proof.
  revert i. induction fuel as [|fuel IH]; intros i Hi Hle Hfuel; simpl.
  - unfold py_range1. replace (Z.to_nat (total - i)) with 0%nat by lia. done.
  - destruct (Z.ltb_spec i total) as [Hlt|Hge].
    + simpl. destruct (Z.le_gt_cases (i + size) total).
      * rewrite IH by lia. rewrite Z.min_l by lia. apply py_range1_app; lia.
      * rewrite Z.min_r by lia.
        destruct fuel; simpl; [by rewrite app_nil_r|].
        destruct (Z.ltb_spec (i + size) total); [lia|]. by rewrite app_nil_r.
    + unfold py_range1. replace (Z.to_nat (total - i)) with 0%nat by lia. done.
Qed.
End Batches.

(** With a usable batch size the batches concatenate back to the input. *)
Lemma create_batches_flat {A} (items : list A) (batch_size : Z) :
  1 ≤ adjusted_batch_size (Z.of_nat (length items)) batch_size →
  ∃ batches, create_batches items batch_size = Ok batches ∧ concat batches.*2 = items.
Proof.
  intros Hsize. unfold create_batches, py_range.
  destruct (Z.eqb_spec (adjusted_batch_size (Z.of_nat (length items)) batch_size) 0); [lia|].
  destruct (Z.ltb_spec 0 (adjusted_batch_size (Z.of_nat (length items)) batch_size)); [|lia].
  simpl. eexists. split; [reflexivity|].
  rewrite <- list_fmap_compose.
  rewrite (list_fmap_ext _ (fun i => py_slice items i
    (i + adjusted_batch_size (Z.of_nat (length items)) batch_size))) by (intros; done).
  rewrite batches_cover_items by lia. done.
Qed.

(** C4 (as amended): whenever the adjusted batch size is at least 1,
    [create_batches] returns the batches of that size, in order: batch [k]
    is the index range from [k * size] up to [min((k + 1) * size, total)]
    with the items at these positions, the index lists concatenate to
    [0 .. total - 1] and the item lists to [items]. The adjusted size is
    [max(batch_size, total // 50)] above 1000 items, [max(1, total // 4)]
    below 50, and [batch_size] in between. *)
Theorem create_batches_partition {A} (items : list A) (batch_size : Z) :
  let total := Z.of_nat (length items) in
  let size := adjusted_batch_size total batch_size in
  1 ≤ size →
  ∃ batches,
    create_batches items batch_size = Ok batches ∧
    (1000 < total → size = Z.max batch_size (total / 50)) ∧
    (total < 50 → size = Z.max 1 (total / 4)) ∧
    (50 ≤ total ≤ 1000 → size = batch_size) ∧
    (∀ k : nat,
        batches !! k =
          if Z.of_nat k * size <? total
          then Some (py_range1 (Z.of_nat k * size) (Z.min ((Z.of_nat k + 1) * size) total),
                     take (Z.to_nat size) (drop (Z.to_nat (Z.of_nat k * size)) items))
          else None) ∧
    concat batches.*1 = Z.of_nat <$> seq 0 (length items) ∧
    concat batches.*2 = items.
Proof.
  intros total size Hsize.
  destruct (adjusted_batch_size_cases total batch_size) as (Hbig & Hsmall & Hmid).
  unfold create_batches, py_range. fold total. fold size.
  destruct (Z.eqb_spec size 0); [lia|]. destruct (Z.ltb_spec 0 size); [|lia].
  simpl. eexists. split; [reflexivity|]. split; [done|]. split; [done|]. split; [done|]. split; [|split].
  - intros k. rewrite list_lookup_fmap, range_up_lookup by lia.
    rewrite Z.add_0_l.
    destruct (Z.ltb_spec (Z.of_nat k * size) total) as [Hk|Hk]; [|done].
    simpl. rewrite py_slice_forward by lia.
    do 3 f_equal; lia.
  - rewrite <- list_fmap_compose.
    rewrite (list_fmap_ext _ (fun i => py_range1 i (Z.min (i + size) total)))
      by (intros; done).
    subst total. rewrite batches_cover_indices by lia. apply py_range1_from_zero.
  - rewrite <- list_fmap_compose.
    rewrite (list_fmap_ext _ (fun i => py_slice items i (i + size))) by (intros; done).
    subst total. rewrite batches_cover_items by lia. done.
Qed.

(** C7: with an explicit count [determine_worker_count] returns
    [max(1, count)]; without one it returns [min(2 * cpus, 128)], taking 4
    for the number of CPUs when the system cannot tell it. *)
Theorem determine_worker_count_spec :
  (∀ cpu_count w, determine_worker_count cpu_count (Some w) = Z.max 1 w) ∧
  (∀ cpus, determine_worker_count (Some cpus) None = Z.min (2 * Z.pos cpus) 128) ∧
  determine_worker_count None None = 8.
Proof.
  split; [done|]. split; [|done].
  intros cpus. unfold determine_worker_count, cpu_count_or. simpl. lia.
Qed.

(** C4 as stated fails: with 50 items and batch size -1 no batch is produced,
    so no list of batches returned by [create_batches] covers the items. *)
Lemma create_batches_negative_size_drops_items :
  ¬ ∃ batches,
      create_batches (replicate 50 tt) (-1) = Ok batches ∧
      concat batches.*2 = replicate 50 tt.
Proof. intros (batches & Hb & Hcover). vm_compute in Hb. by simplify_eq. Qed.

(** With batch size 0 in the same range it raises instead. *)
Lemma create_batches_zero_size_raises :
  create_batches (replicate 50 tt) 0 = Raised ValueError.
Proof. reflexivity. Qed.

Example create_batches_2000_items :
  adjusted_batch_size 2000 20 = 40 ∧
  ∃ batches, create_batches (seq 0 2000) 20 = Ok batches ∧ length batches = 50%nat ∧
             Forall (fun b => length b.2 = 40%nat) batches.
Proof.
  split; [reflexivity|]. eexists. split; [reflexivity|]. split; [reflexivity|].
  apply (bool_decide_unpack _). vm_compute. exact I.
Qed.

Example create_batches_10_items :
  adjusted_batch_size 10 20 = 2 ∧
  create_batches (seq 0 10) 20 =
    Ok [([0; 1], [0; 1]%nat); ([2; 3], [2; 3]%nat); ([4; 5], [4; 5]%nat);
        ([6; 7], [6; 7]%nat); ([8; 9], [8; 9]%nat)].
Proof. split; reflexivity. Qed.

(** ** The retry wrapper *)

Section RetryFacts.
Context {Val Exn : Type}.
Implicit Types (func : Z → outcome Val Exn).

Lemma safe_call_loop_spec max_retries func (fuel : nat) (attempt : Z) :
  1 ≤ attempt ≤ Z.max 1 (max_retries + 1) →
  (Z.to_nat (Z.max 1 (max_retries + 1) - attempt) < fuel)%nat →
  ∃ o n,
    safe_call_loop fuel max_retries func attempt = Some (o, n) ∧
    attempt ≤ n ≤ Z.max 1 (max_retries + 1) ∧
    o = func n ∧
    (∀ k, attempt ≤ k < n → ∃ e, func k = Exc e) ∧
    (∀ e, o = Exc e → n = Z.max 1 (max_retries + 1)).
Proof.
  revert attempt. induction fuel as [|fuel IH]; intros attempt Ha Hfuel; [lia|].
  simpl. unfold retry_decide.
  destruct (func attempt) as [v|e] eqn:Hf.
  - exists (Ret v), attempt. split; [done|]. split; [lia|]. split; [done|].
    split; [intros k ?; lia | done].
  - destruct (Z.leb_spec (max_retries + 1) attempt).
    + exists (Exc e), attempt. split; [done|]. split; [lia|]. split; [done|].
      split; [intros k ?; lia | intros _ _; lia].
    + destruct (IH (attempt + 1)) as (o & n & Hrun & Hn & Ho & Hbefore & Hexc);
        [lia | lia |].
      exists o, n. split; [done|]. split; [lia|]. split; [done|]. split; [|done].
      intros k Hk. destruct (decide (k = attempt)) as [->|]; [eauto|].
      apply Hbefore. lia.
Qed.
End RetryFacts.

(** C3 (as amended): [safe_call] always returns; it makes [n] invocations
    with [1 ≤ n ≤ max(1, max_retries + 1)], hence at most [max_retries + 1]
    when [max_retries] is not negative; every invocation before the last
    raised; the outcome is that of the last invocation, so a value returned
    by any attempt is the result, in particular after exactly [max_retries]
    failures; and an exception comes out only from the last attempt allowed. *)
Theorem retry_wrapper_attempts {Item KW Val Exn}
    (func : Item → KW → Z → outcome Val Exn) (max_retries : Z)
    (item : Item) (kwargs : KW) :
  ∃ o n,
    _make_retry_async func max_retries item kwargs = Some (o, n) ∧
    1 ≤ n ≤ Z.max 1 (max_retries + 1) ∧
    (0 ≤ max_retries → n ≤ max_retries + 1) ∧
    o = func item kwargs n ∧
    (∀ k, 1 ≤ k < n → ∃ e, func item kwargs k = Exc e) ∧
    (∀ e, o = Exc e → n = Z.max 1 (max_retries + 1)) ∧
    (∀ k v, 1 ≤ k ≤ Z.max 1 (max_retries + 1) →
       func item kwargs k = Ret v →
       (∀ j, 1 ≤ j < k → ∃ e, func item kwargs j = Exc e) →
       o = Ret v ∧ n = k).
Proof.
  unfold _make_retry_async.
  destruct (safe_call_loop_spec max_retries (func item kwargs)
              (Z.to_nat (Z.max 1 (max_retries + 1))) 1)
    as (o & n & Hrun & Hn & Ho & Hbefore & Hexc); [lia | lia |].
  exists o, n. split; [done|]. split; [done|]. split; [lia|]. split; [done|].
  split; [done|]. split; [done|].
  intros k v Hk Hret Hfail.
  assert (n = k) as ->; [|by rewrite Ho, Hret].
  destruct (Z.lt_trichotomy n k) as [Hlt|[Heq|Hgt]]; [|done|].
  - destruct (Hfail n) as [e He]; [lia|].
    rewrite He in Ho. specialize (Hexc e Ho). lia.
  - destruct (Hbefore k) as [e He]; [lia|]. congruence.
Qed.

(** C3 as stated fails for a negative [max_retries]: with -1 the wrapper
    still invokes an always-raising function once, more than
    [max_retries + 1 = 0] times. *)
Lemma retry_wrapper_negative_max_retries :
  ∃ n, _make_retry_async (fun (_ _ : unit) (_ : Z) => Exc (Val := unit) tt) (-1) tt tt
         = Some (Exc tt, n) ∧
       ¬ n ≤ -1 + 1.
Proof. exists 1. split; [reflexivity | lia]. Qed.

(** ** Runs of the scheduling core *)

Section EngineFacts.
Context {Item Val Exn Obj : Type} `{PyObject Obj} `{PyException Exn}.

Abbreviation engine := (@engine Item Obj).
Abbreviation state := (@state Item Val Exn Obj).
Abbreviation task := (@task Item Val Exn).
Abbreviation action := (action Val Exn).
Abbreviation phase := (phase Val Exn).
Abbreviation scheduled := (@scheduled Item Val Exn Obj).
Abbreviation returned_empty := (@returned_empty Item Val Exn Obj).

Implicit Types (env : engine) (st : state) (t : task) (a : action) (ph : phase).

(** *** Runs *)

Lemma run_app env acts1 acts2 st :
  run env (acts1 ++ acts2) st = run env acts1 st ≫= run env acts2.
Proof.
  revert st. induction acts1 as [|a acts1 IH]; intros st; simpl; [done|].
  destruct (step env a st); simpl; [apply IH | done].
Qed.

Lemma run_snoc env acts a st st' :
  run env (acts ++ [a]) st = Some st' ↔
  ∃ st1, run env acts st = Some st1 ∧ step env a st1 = Some st'.
Proof.
  rewrite run_app. split.
  - destruct (run env acts st) as [st1|]; simpl; [|done].
    destruct (step env a st1) eqn:Hs; [|done]. intros [= <-]. eauto.
  - intros (st1 & -> & Hs). simpl. by rewrite Hs.
Qed.

(** Induction along a run, one event at a time. *)
Lemma run_ind env st0 (P : list action → state → Prop) :
  P [] st0 →
  (∀ acts st a st',
      run env acts st0 = Some st → P acts st →
      step env a st = Some st' → P (acts ++ [a]) st') →
  ∀ acts st, run env acts st0 = Some st → P acts st.
Proof.
  intros Hinit Hstep acts. induction acts as [|a acts IH] using rev_ind; intros st Hrun.
  - simpl in Hrun. by injection Hrun as <-.
  - apply run_snoc in Hrun as (st1 & Hrun & Hs). eauto.
Qed.

(** Every event is the return of [gather], its raising the exception of
    a task, or a move of one task along its state machine, with the
    matching effect on the store. *)
Lemma step_view env a st st' :
  step env a st = Some st' →
  (st_returned st = false ∧ st_raised st = false) ∧
  ((a = GatherDone ∧
    forallb (fun t => is_terminal (t_phase t)) (st_tasks st) = true ∧
    st_crash st = None ∧
    st' = gather_done env st) ∨
   (∃ c, a = GatherRaises ∧ st_crash st = Some c ∧ st' = gather_raised env c st) ∨
   (∃ i t ph',
      st_tasks st !! i = Some t ∧
      transition env i (t_phase t) a ph' ∧
      (t_phase t = AtGate → 0 < st_sem st) ∧
      st' = effect env i t ph' st)).
Proof.
  unfold step, ended. destruct (st_returned st) eqn:Hret; [done|].
  destruct (st_raised st) eqn:Hrai; [done|].
  intros Hs. split; [done|].
  destruct a as [i|i|i|i|i v|i e|i| |]; simpl in Hs;
    try (destruct (st_tasks st !! i) as [t|] eqn:Ht; simpl in Hs; [|done];
         destruct (t_phase t) as [| |n|n|r|f|] eqn:Hph; try done).
  - destruct (limiter_grants env) eqn:Hg; [|done]. injection Hs as <-.
    right; right. exists i, t, AtGate. rewrite Hph.
    split; [done|]; split; [by constructor|]; split; [by rewrite ?Hph|].
    unfold effect, move. rewrite Hph. simpl. f_equal. lia.
  - destruct (limiter_grants env) eqn:Hg; [done|]. injection Hs as <-.
    right; right. exists i, t, Refused. rewrite Hph.
    split; [done|]; split; [by constructor|]; split; [by rewrite ?Hph|].
    unfold effect, refuse. rewrite Hph. simpl. f_equal. lia.
  - destruct (Z.ltb_spec 0 (st_sem st)); [|done]. injection Hs as <-.
    right; right. exists i, t, (Ready 1). rewrite Hph.
    split; [done|]; split; [constructor|]; split; [by rewrite ?Hph|].
    unfold effect, acquire. rewrite Hph. simpl. f_equal. lia.
  - injection Hs as <-. right; right. exists i, t, (Calling n). rewrite Hph.
    split; [done|]; split; [constructor|]; split; [by rewrite ?Hph|].
    unfold effect, invoke. rewrite Hph. simpl. f_equal. lia.
  - injection Hs as <-. right; right. exists i, t, (Succeeded v). rewrite Hph.
    split; [done|]; split; [constructor|]; split; [by rewrite ?Hph|].
    unfold effect, attempt_done, complete. rewrite Hph. simpl. f_equal. lia.
  - injection Hs as <-. right; right. unfold attempt_done, retry_decide.
    destruct (Z.leb_spec (e_max_retries env + 1) n).
    + exists i, t, (Failed (ProcessError e)). rewrite Hph.
      split; [done|]; split; [by constructor|]; split; [by rewrite ?Hph|].
      unfold effect, fail, escape, complete, log_failure, stored, leaves_with.
      rewrite Hph. simpl. destruct (exn_markup_ok e); simpl; f_equal; lia.
    + exists i, t, (Ready (n + 1)). rewrite Hph.
      split; [done|]; split; [by constructor|]; split; [by rewrite ?Hph|].
      unfold effect, move. rewrite Hph. simpl. f_equal. lia.
  - destruct (Z.ltb_spec 0 (e_timeout env)); [|done]. injection Hs as <-.
    right; right. exists i, t, (Failed TimeoutError). rewrite Hph.
    split; [done|]; split; [by constructor|]; split; [by rewrite ?Hph|].
    unfold effect, fail, complete. rewrite Hph. simpl. f_equal. lia.
  - destruct (Z.ltb_spec 0 (e_timeout env)); [|done]. injection Hs as <-.
    right; right. exists i, t, (Failed TimeoutError). rewrite Hph.
    split; [done|]; split; [by constructor|]; split; [by rewrite ?Hph|].
    unfold effect, fail, complete. rewrite Hph. simpl. f_equal. lia.
  - destruct (forallb _ _) eqn:Hall; [|done].
    destruct (st_crash st) eqn:Hc; [done|]. injection Hs as <-. by left.
  - destruct (st_crash st) as [c|] eqn:Hc; [|done]. simpl in Hs.
    injection Hs as <-. right; left. by exists c.
Qed.

(** *** Bookkeeping lemmas *)

Lemma transition_source env i ph a ph' :
  transition env i ph a ph' → is_terminal ph = false.
Proof. destruct 1; try done. by destruct ph. Qed.

Lemma transition_concerns env i ph a ph' j :
  transition env i ph a ph' → concerns j a = true → j = i.
Proof. destruct 1; simpl; try done; intros ?%Nat.eqb_eq; done. Qed.

Lemma count_where_insert (f : phase → bool) (tasks : list task) i t ph' :
  tasks !! i = Some t →
  (count_where f (<[i := with_phase t ph']> tasks) + Nat.b2n (f (t_phase t))
   = count_where f tasks + Nat.b2n (f ph'))%nat.
Proof.
  unfold count_where. revert i.
  induction tasks as [|x tasks IH]; intros [|i] Hi; simplify_eq/=.
  - destruct (f (t_phase t)), (f ph'); simpl; lia.
  - specialize (IH i Hi). destruct (f (t_phase x)); simpl in *; lia.
Qed.

Lemma count_where_le (f : phase → bool) (tasks : list task) :
  (count_where f tasks ≤ length tasks)%nat.
Proof. unfold count_where. apply List.filter_length_le. Qed.

Lemma count_where_forallb (f : phase → bool) (tasks : list task) :
  forallb (fun t => f (t_phase t)) tasks = true ↔
  count_where f tasks = length tasks.
Proof.
  unfold count_where. induction tasks as [|x tasks IH]; simpl; [done|].
  pose proof (List.filter_length_le (fun t => f (t_phase t)) tasks).
  destruct (f (t_phase x)); simpl.
  - rewrite IH. lia.
  - split; [done | lia].
Qed.

Lemma count_where_all (f : phase → bool) (tasks : list task) i t :
  count_where f tasks = length tasks → tasks !! i = Some t → f (t_phase t) = true.
Proof.
  intros Hall%count_where_forallb Hi.
  rewrite forallb_forall in Hall. apply Hall.
  apply list_elem_of_In. by eapply list_elem_of_lookup_2.
Qed.

Lemma count_where_zero (f : phase → bool) (tasks : list task) i t :
  count_where f tasks = 0%nat → tasks !! i = Some t → f (t_phase t) = false.
Proof.
  unfold count_where. revert i.
  induction tasks as [|x tasks IH]; intros [|i] Hc Hi; simplify_eq/=.
  - by destruct (f (t_phase t)).
  - destruct (f (t_phase x)); [done|]. eauto.
Qed.

Lemma progress_marks_S total n :
  progress_marks total (S n) =
    progress_marks total n ++ (if update_due total (S n) then [S n] else []).
Proof. unfold progress_marks. by rewrite seq_S, List.filter_app. Qed.

Lemma invocations_snoc j (calls : list (@call Item Obj)) c :
  invocations j (calls ++ [c]) =
    (invocations j calls + (if (c_idx c =? j)%nat then 1 else 0))%nat.
Proof.
  unfold invocations. rewrite List.filter_app, length_app. simpl.
  by destruct (c_idx c =? j)%nat.
Qed.

Lemma item_events_snoc acts a j :
  item_events (acts ++ [a]) j = item_events acts j ++ (if concerns j a then [a] else []).
Proof. unfold item_events. by rewrite List.filter_app. Qed.

Lemma effect_lookup env i t ph' st j :
  st_tasks st !! i = Some t →
  st_tasks (effect env i t ph' st) !! j =
    if decide (i = j) then Some (with_phase t ph') else st_tasks st !! j.
Proof.
  intros Hi. simpl. case_decide as Hij.
  - subst. apply list_lookup_insert_eq. by eapply lookup_lt_Some.
  - by apply list_lookup_insert_ne.
Qed.

(** *** The invariants hold initially *)

Lemma scheduled_lookup env i t :
  st_tasks (scheduled env) !! i = Some t →
  t_idx t = i ∧ e_items env !! i = Some (t_item t) ∧
  t_phase t = (if limited env then AtLimiter else AtGate).
Proof.
  simpl. rewrite list_lookup_imap.
  destruct (e_items env !! i) as [x|]; simpl; [|done]. by intros [= <-].
Qed.

Lemma scheduled_count (f : phase → bool) env :
  f AtLimiter = false → f AtGate = false →
  count_where f (st_tasks (scheduled env)) = 0%nat.
Proof.
  intros H1 H2. unfold count_where. simpl.
  assert (∀ (l : list Item) (g : nat → Item → task),
             (∀ i x, f (t_phase (g i x)) = false) →
             List.filter (fun t : task => f (t_phase t)) (imap g l) = []) as Hg.
  { induction l as [|x l IH]; intros g Hgf; simpl; [done|].
    rewrite Hgf. apply IH. intros i y. apply Hgf. }
  rewrite Hg; [done|]. intros i x. simpl. by destruct (limited env).
Qed.

Lemma shape_scheduled env : shape_inv env (scheduled env).
Proof.
  split.
  - simpl. by rewrite length_imap.
  - intros i t Hi. by destruct (scheduled_lookup _ _ _ Hi) as (? & ? & ?).
  - apply list_eq. intros i. simpl.
    rewrite list_lookup_fmap, list_lookup_imap.
    destruct (e_items env !! i) as [x|] eqn:Hx; simpl.
    + rewrite lookup_replicate_2; [by destruct (limited env)|].
      by eapply lookup_lt_Some.
    + apply lookup_replicate_None. by apply lookup_ge_None.
Qed.

Lemma counters_scheduled env : counters_inv env (scheduled env).
Proof.
  split; rewrite ?scheduled_count by done; simpl; try done. lia.
Qed.

Lemma calls_scheduled env : calls_inv env (scheduled env).
Proof.
  split.
  - intros i t (_ & _ & ->)%scheduled_lookup. by destruct (limited env).
  - simpl. intros c Hc. by apply elem_of_nil in Hc.
Qed.

Lemma logs_scheduled env : logs_inv env (scheduled env).
Proof.
  split; simpl.
  - intros i t e (_ & _ & ->)%scheduled_lookup. by destruct (limited env).
  - intros j m e Hin. by apply elem_of_nil in Hin.
  - intros p s Hin. by apply elem_of_nil in Hin.
  - intros i t (_ & _ & ->)%scheduled_lookup. by destruct (limited env).
  - constructor.
Qed.

Lemma trace_scheduled env : trace_inv [] (scheduled env).
Proof. intros i t (_ & _ & ->)%scheduled_lookup. by destruct (limited env). Qed.

(** *** The invariants are kept by every event *)

Lemma stored_terminal ph : stored ph = true → is_terminal ph = true.
Proof. by destruct ph. Qed.

Lemma not_returned_normally st : st_returned st = false → returned_normally st = false.
Proof. unfold returned_normally. by intros ->. Qed.

Lemma shape_step env a st st' :
  shape_inv env st → step env a st = Some st' → shape_inv env st'.
Proof.
  intros [Hlen Hidx Hres] Hs.
  apply step_view in Hs as
    [_ [(-> & _ & _ & ->) | [(c & -> & _ & ->) | (i & t & ph' & Hi & Htr & _ & ->)]]];
    [by split | by destruct c; split |].
  destruct (Hidx i t Hi) as [Hti Hitem].
  pose proof (transition_source _ _ _ _ _ Htr) as Hsrc.
  split.
  - simpl. by rewrite length_insert.
  - intros j t' Hj. rewrite effect_lookup in Hj by done.
    case_decide; [|by apply Hidx]. by simplify_eq/=.
  - simpl. rewrite list_fmap_insert. simpl. rewrite Hti, Hres.
    destruct (stored ph') eqn:Hst; [done|].
    symmetry. apply list_insert_id. rewrite list_lookup_fmap, Hi. simpl.
    f_equal. destruct ph', (t_phase t); done.
Qed.

Lemma counters_step env a st st' :
  counters_inv env st → step env a st = Some st' → counters_inv env st'.
Proof.
  intros [Hsem Hcompl Hupd Hret] Hs.
  apply step_view in Hs as
    [[Hnot Hnor] [(-> & Hall & Hc & ->) | [(c & -> & Hc & ->) |
                  (i & t & ph' & Hi & Htr & _ & ->)]]].
  - rewrite (not_returned_normally _ Hnot), app_nil_r in Hupd.
    split; simpl; try done.
    + unfold returned_normally. simpl. by rewrite Hupd, Hc.
    + intros _. by apply count_where_forallb.
  - rewrite (not_returned_normally _ Hnot), app_nil_r in Hupd.
    assert (returned_normally (gather_raised env c st) = false) as Hgr.
    { unfold returned_normally. destruct c; simpl; rewrite ?Hc, ?Hnot; done. }
    split; rewrite ?Hgr; destruct c; simpl; rewrite ?app_nil_r; done.
  - pose proof (transition_source _ _ _ _ _ Htr) as Hsrc.
    pose proof (count_where_insert is_running _ _ _ ph' Hi) as Hrun.
    pose proof (count_where_insert is_terminal _ _ _ ph' Hi) as Hterm.
    rewrite Hsrc in Hterm. simpl in Hterm.
    rewrite (not_returned_normally _ Hnot), app_nil_r in Hupd.
    assert (returned_normally (effect env i t ph' st) = false) as Hgr
      by (by apply not_returned_normally).
    split; rewrite ?Hgr, ?app_nil_r.
    + simpl. destruct (is_running (t_phase t)), (is_running ph'); simpl in *; lia.
    + simpl. destruct (is_terminal ph'); simpl in *; lia.
    + simpl. destruct (is_terminal ph'); simpl; [|done].
      rewrite progress_marks_S, Hupd.
      destruct (update_due _ _); by rewrite ?app_nil_r.
    + done.
Qed.

Lemma calls_step env a st st' :
  shape_inv env st → calls_inv env st → step env a st = Some st' → calls_inv env st'.
Proof.
  intros [_ Hidx _] [Hatt Hargs] Hs.
  apply step_view in Hs as
    [_ [(-> & _ & _ & ->) | [(c & -> & _ & ->) | (i & t & ph' & Hi & Htr & _ & ->)]]];
    [by split | by destruct c; split |].
  destruct (Hidx i t Hi) as [Hti Hitem].
  split.
  - intros j t' Hj. rewrite effect_lookup in Hj by done.
    case_decide as Hij.
    + simplify_eq/=. specialize (Hatt _ _ Hi). revert Hatt.
      destruct Htr as [Hg|Hg| |n|n v|n e Hn|n e Hn|ph Hrun Htmo]; simpl; intros Hatt;
        rewrite ?invocations_snoc; simpl; rewrite ?Nat.eqb_refl;
        unfold max_attempts in *; try lia.
      destruct ph; simpl in *; try done; unfold max_attempts in *; lia.
    + specialize (Hatt _ _ Hj).
      destruct ph'; simpl; try done.
      rewrite invocations_snoc. simpl. rewrite Hti.
      destruct (Nat.eqb_spec i j); [done|]. by rewrite Nat.add_0_r.
  - intros c Hc. simpl in Hc.
    destruct ph'; try by apply Hargs.
    apply elem_of_app in Hc as [Hc|Hc%list_elem_of_singleton]; [by apply Hargs|].
    subst c. simpl. by rewrite Hti.
Qed.

Lemma logs_step env a st st' :
  shape_inv env st → logs_inv env st → step env a st = Some st' → logs_inv env st'.
Proof.
  intros [_ Hidx _] [Hfailed Herrors Hwrites Hwritten Honce] Hs.
  apply step_view in Hs as
    [_ [(-> & _ & _ & ->) | [(c & -> & _ & ->) | (i & t & ph' & Hi & Htr & _ & ->)]]];
    [by split | by destruct c; split |].
  destruct (Hidx i t Hi) as [Hti Hitem].
  pose proof (transition_source _ _ _ _ _ Htr) as Hsrc.
  assert (∀ j tj, st_tasks st !! j = Some tj → is_terminal (t_phase tj) = true → i ≠ j)
    as Hfresh.
  { intros j tj Hj Hterm ->. simplify_eq. congruence. }
  split.
  - intros j t' e Hj Hph Hlog. rewrite effect_lookup in Hj by done.
    case_decide as Hij.
    + simplify_eq/=. rewrite Hlog, elem_of_app, list_elem_of_singleton. by right.
    + specialize (Hfailed _ _ _ Hj Hph Hlog). simpl.
      destruct ph' as [| | | | |f|]; try done.
      destruct (loggable f); [|done]. apply elem_of_app. by left.
  - intros j m e Hin. simpl in Hin.
    assert ((j, m, e) ∈ st_errors st ∨
            (ph' = Failed e ∧ loggable e = true ∧ j = i ∧ m = e_max_retries env))
      as [Hold|(-> & Hlog & -> & ->)].
    { destruct ph' as [| | | | |f|]; auto.
      destruct (loggable f) eqn:Hlog; auto.
      apply elem_of_app in Hin as [?|Heq%list_elem_of_singleton]; auto.
      right. by simplify_eq. }
    + destruct (Herrors _ _ _ Hold) as (-> & Hlog & tj & Hj & Hph).
      split; [done|]. split; [done|].
      exists tj. split; [|done]. rewrite effect_lookup by done.
      rewrite decide_False; [done|]. eapply Hfresh; [done|]. by rewrite Hph.
    + split; [done|]. split; [done|]. exists (with_phase t (Failed e)).
      rewrite effect_lookup by done. by rewrite decide_True.
  - intros p s Hin. simpl in Hin.
    assert ((p, s) ∈ st_writes st ∨
            (stored ph' = true ∧ p = i ∧ s = i)) as [Hold|(Hterm & -> & ->)].
    { destruct (stored ph'); auto.
      apply elem_of_app in Hin as [?|Heq%list_elem_of_singleton]; auto.
      right. by simplify_eq. }
    + destruct (Hwrites _ _ Hold) as (-> & tj & Hj & Hterm). split; [done|].
      exists tj. split; [|done]. rewrite effect_lookup by done.
      rewrite decide_False; [done|]. eapply Hfresh; [done|]. by apply stored_terminal.
    + split; [done|]. exists (with_phase t ph').
      rewrite effect_lookup by done. by rewrite decide_True.
  - intros j t' Hj Hterm. rewrite effect_lookup in Hj by done. simpl.
    case_decide as Hij.
    + simplify_eq/=. rewrite Hterm, elem_of_app, list_elem_of_singleton. by right.
    + specialize (Hwritten _ _ Hj Hterm).
      destruct (stored ph'); [|done]. apply elem_of_app. by left.
  - simpl. destruct (stored ph'); [|done].
    rewrite fmap_app. simpl. apply NoDup_app. split; [done|]. split; [|apply NoDup_singleton].
    intros s Hs ->%list_elem_of_singleton.
    apply list_elem_of_fmap in Hs as ([p s] & Heq & Hin). simpl in Heq. subst s.
    destruct (Hwrites _ _ Hin) as (-> & tj & Hj & Hterm).
    rewrite Hti in Hj. eapply Hfresh; [done| |done]. by apply stored_terminal.
Qed.

Lemma trace_step env acts a st st' :
  trace_inv acts st → step env a st = Some st' → trace_inv (acts ++ [a]) st'.
Proof.
  intros Htrace Hs.
  apply step_view in Hs as
    [_ [(-> & _ & _ & ->) | [(c & -> & _ & ->) | (i & t & ph' & Hi & Htr & _ & ->)]]].
  { intros j t' Hj. rewrite item_events_snoc. simpl. rewrite app_nil_r. by apply Htrace. }
  { intros j t' Hj. rewrite item_events_snoc. simpl. rewrite app_nil_r.
    apply Htrace. by destruct c. }
  intros j t' Hj. rewrite effect_lookup in Hj by done.
  rewrite item_events_snoc. case_decide as Hij.
  - simplify_eq/=. specialize (Htrace _ _ Hi). revert Htrace.
    destruct Htr as [Hg|Hg| |n|n v|n e Hn|n e Hn|ph Hrun Htmo]; simpl;
      rewrite ?Nat.eqb_refl, ?app_nil_r; intros Htrace;
      try done; try (by eexists).
    + by rewrite Htrace.
    + apply Forall_app. split; [done|]. by repeat constructor.
    + destruct ph; try done; by eexists.
  - destruct (concerns j a) eqn:Hc.
    + apply (transition_concerns _ _ _ _ _ _ Htr) in Hc. congruence.
    + rewrite app_nil_r. by apply Htrace.
Qed.

(** All invariants, along every run from the scheduled state. *)
Lemma run_invariants env acts st :
  run env acts (scheduled env) = Some st →
  shape_inv env st ∧ counters_inv env st ∧ calls_inv env st ∧
  logs_inv env st ∧ trace_inv acts st.
Proof.
  revert acts st. apply run_ind.
  - split; [apply shape_scheduled|]. split; [apply counters_scheduled|].
    split; [apply calls_scheduled|]. split; [apply logs_scheduled|apply trace_scheduled].
  - intros acts st a st' _ (Hshape & Hcnt & Hcalls & Hlogs & Htrace) Hs.
    eauto 10 using shape_step, counters_step, calls_step, logs_step, trace_step.
Qed.

(** *** Exceptions that leave a task *)

Lemma limiter_raises_spec env :
  limiter_raises env = true ↔ limited env = true ∧ limiter_grants env = false.
Proof.
  unfold limiter_raises. destruct (limited env), (limiter_grants env); simpl;
    intuition congruence.
Qed.


Lemma crash_scheduled env : crash_inv env (scheduled env).
Proof.
  split; simpl; try done.
  - intros i t (_ & _ & Hph)%scheduled_lookup Hat. rewrite Hph in Hat.
    by destruct (limited env).
  - intros i t (_ & _ & ->)%scheduled_lookup.
    destruct (limiter_raises env) eqn:Hr.
    + apply limiter_raises_spec in Hr as [-> _]. by left.
    + by destruct (limited env).
  - intros _ i t (_ & _ & ->)%scheduled_lookup. by destruct (limited env).
Qed.

Lemma crash_step env a st st' :
  crash_inv env st → step env a st = Some st' → crash_inv env st'.
Proof.
  intros [Hlim Hmode Hnone Hlimiter Hlogger Hret Hrai Hunx] Hs.
  apply step_view in Hs as
    [[Hnot Hnor] [(-> & Hall & Hc & ->) | [(c & -> & Hc & ->) |
                  (i & t & ph' & Hi & Htr & _ & ->)]]].
  - split; simpl; try done.
    + intros _. split; [done|]. by left.
    + by rewrite Hunx, Hc.
  - destruct c; split; simpl; try done.
    + intros _. split; [done|]. by right.
    + by rewrite Hunx, Hc, Hnot.
    + by rewrite Hnot.
    + intros _. by eexists.
  - pose proof (transition_source _ _ _ _ _ Htr) as Hsrc.
    assert (∀ j, i ≠ j → st_tasks (effect env i t ph' st) !! j = st_tasks st !! j)
      as Hother.
    { intros j Hij. rewrite effect_lookup by done. by rewrite decide_False. }
    assert (st_tasks (effect env i t ph' st) !! i = Some (with_phase t ph')) as Hself.
    { rewrite effect_lookup by done. by rewrite decide_True. }
    split.
    + intros j t' Hj Hat. destruct (decide (i = j)) as [<-|Hij].
      * rewrite Hself in Hj. simplify_eq/=. inversion Htr.
      * rewrite Hother in Hj by done. eauto.
    + intros j t' Hj. destruct (decide (i = j)) as [<-|Hij].
      * rewrite Hself in Hj. simplify_eq/=. specialize (Hmode _ _ Hi).
        specialize (Hlim _ _ Hi).
        destruct (limiter_raises env) eqn:Hr.
        -- apply limiter_raises_spec in Hr as [_ Hr].
           destruct Hmode as [Hph|Hph]; rewrite Hph in Htr; inversion Htr;
             subst; try congruence; auto; done.
        -- destruct Htr; try done.
           assert (limiter_raises env = true); [|congruence].
           apply limiter_raises_spec. auto.
      * rewrite Hother in Hj by done. exact (Hmode _ _ Hj).
    + intros Hc j t' Hj. simpl in Hc.
      destruct (leaves_with ph') as [c|] eqn:Hl.
      { unfold first_crash in Hc. by destruct (st_crash st). }
      destruct (decide (i = j)) as [<-|Hij].
      * rewrite Hself in Hj. by simplify_eq/=.
      * rewrite Hother in Hj by done. eauto.
    + simpl. intros Hc.
      destruct (leaves_with ph') as [c|] eqn:Hl; [|by auto].
      unfold first_crash in Hc. destruct (st_crash st) eqn:Hold; simplify_eq; [by auto|].
      destruct (t_phase t) eqn:Hph; inversion Htr; subst; simpl in Hl; try done.
      * apply limiter_raises_spec. split; [|done]. eauto.
      * by destruct (exn_markup_ok e).
    + intros e Hc. simpl in Hc.
      assert (st_crash st = Some (LoggerRaised e) ∨
              (ph' = Failed e ∧ loggable e = false)) as [Hold|[-> Hlog]].
      { destruct (leaves_with ph') as [c|] eqn:Hl; [|by auto].
        unfold first_crash in Hc. destruct (st_crash st) eqn:Hold; [by auto|].
        simplify_eq. right. destruct ph' as [| | | | |f|]; simpl in Hl; try done.
        destruct (loggable f) eqn:Hlog; [done|]. by simplify_eq. }
      * destruct (Hlogger _ Hold) as (Hlog & j & tj & Hj & Hph). split; [done|].
        exists j, tj. split; [|done]. rewrite Hother; [done|].
        intros ->. simplify_eq. by rewrite Hph in Hsrc.
      * split; [done|]. by exists i, (with_phase t (Failed e)).
    + simpl. by rewrite Hnot.
    + simpl. by rewrite Hnor.
    + simpl. rewrite Hnot, Hunx.
      assert (∀ c : option (crash Exn),
                match c with
                | Some LimiterRaised => if st_returned st then [LimiterRaised] else []
                | _ => []
                end = @nil (crash Exn)) as Hnil.
      { intros [[|?]|]; by rewrite ?Hnot. }
      rewrite Hnil. unfold first_crash.
      by destruct (leaves_with ph') as [[|?]|], (st_crash st) as [[|?]|].
Qed.

Lemma run_crash_inv env acts st :
  run env acts (scheduled env) = Some st → crash_inv env st.
Proof.
  revert acts st.
  apply (run_ind env (scheduled env) (fun _ st => crash_inv env st)).
  - apply crash_scheduled.
  - intros acts st a st' _ IH Hs. by eapply crash_step.
Qed.

(** *** Termination: every event uses up some of the weight *)

Lemma sum_list_with_insert (g : task → nat) (tasks : list task) i t t' :
  tasks !! i = Some t →
  (sum_list_with g (<[i := t']> tasks) + g t = sum_list_with g tasks + g t')%nat.
Proof.
  revert i. induction tasks as [|x tasks IH]; intros [|i] Hi; simplify_eq/=; [lia|].
  specialize (IH i Hi). lia.
Qed.

Lemma sum_list_with_bound (g : task → nat) (tasks : list task) b :
  (∀ i t, tasks !! i = Some t → g t ≤ b)%nat →
  (sum_list_with g tasks ≤ length tasks * b)%nat.
Proof.
  induction tasks as [|x tasks IH]; intros Hb; simpl; [lia|].
  pose proof (Hb 0%nat x eq_refl).
  assert (sum_list_with g tasks ≤ length tasks * b)%nat; [|lia].
  apply IH. intros i t Hi. by apply (Hb (S i)).
Qed.

Lemma transition_weight env i ph a ph' made :
  transition env i ph a ph' →
  attempts_ok (e_max_retries env) ph made →
  (phase_weight (e_max_retries env) ph' < phase_weight (e_max_retries env) ph)%nat.
Proof.
  destruct 1 as [Hg|Hg| |n|n v|n e Hn|n e Hn|ph Hrun Htmo]; simpl;
    unfold max_attempts; try lia.
  destruct ph; simpl in *; try done; unfold max_attempts; lia.
Qed.

Lemma weight_step env a st st' :
  calls_inv env st → step env a st = Some st' →
  (weight env st' < weight env st)%nat.
Proof.
  intros [Hatt _] Hs.
  apply step_view in Hs as
    [[Hnot Hnor] [(-> & _ & _ & ->) | [(c & -> & _ & ->) |
                  (i & t & ph' & Hi & Htr & _ & ->)]]]; unfold weight, ended.
  - simpl. rewrite Hnot, Hnor. simpl. lia.
  - rewrite Hnot, Hnor. destruct c; simpl; rewrite ?orb_true_r; lia.
  - pose proof (transition_weight _ _ _ _ _ _ Htr (Hatt _ _ Hi)) as Hlt.
    pose proof (sum_list_with_insert
      (fun t => phase_weight (e_max_retries env) (t_phase t))
      _ _ _ (with_phase t ph') Hi) as Hsum.
    simpl in *. rewrite Hnot, Hnor. simpl. lia.
Qed.

Lemma weight_scheduled env : (weight env (scheduled env) ≤ run_bound env)%nat.
Proof.
  unfold weight, run_bound. simpl.
  pose proof (sum_list_with_bound
    (fun t : task => phase_weight (e_max_retries env) (t_phase t))
    (st_tasks (scheduled env))
    (Z.to_nat (2 * max_attempts (e_max_retries env) + 2))) as Hb.
  simpl in Hb. rewrite length_imap in Hb. unfold total_items.
  apply Nat.add_le_mono_r, Hb.
  intros i t (_ & _ & ->)%scheduled_lookup.
  destruct (limited env); simpl; unfold max_attempts; lia.
Qed.

Lemma run_length env acts st :
  run env acts (scheduled env) = Some st →
  (length acts + weight env st ≤ run_bound env)%nat.
Proof.
  revert acts st. apply run_ind.
  - simpl. apply weight_scheduled.
  - intros acts st a st' Hrun IH Hs.
    destruct (run_invariants _ _ _ Hrun) as (_ & _ & Hcalls & _).
    pose proof (weight_step _ _ _ _ Hcalls Hs).
    rewrite length_app. simpl. lia.
Qed.

(** *** Progress: a call that has not ended can always go on *)




Lemma count_where_none (f : phase → bool) (tasks : list task) :
  (∀ i t, tasks !! i = Some t → f (t_phase t) = false) →
  count_where f tasks = 0%nat.
Proof.
  unfold count_where. induction tasks as [|x tasks IH]; intros Hall; simpl; [done|].
  rewrite (Hall 0%nat x) by done. apply IH. intros i t Hi. by apply (Hall (S i)).
Qed.

End EngineFacts.

(** ** From [parallel_process] to the scheduled run *)

Lemma determine_worker_count_pos cpu_count workers :
  1 ≤ determine_worker_count cpu_count workers.
Proof.
  unfold determine_worker_count, cpu_count_or.
  destruct workers; [lia|]. destruct cpu_count as [p|]; simpl; lia.
Qed.

Section Start.
Context {Item Val Exn Obj : Type} `{PyObject Obj} `{PyException Exn}.

Abbreviation engine := (@engine Item Obj).
Abbreviation state := (@state Item Val Exn Obj).
Abbreviation scheduled := (@scheduled Item Val Exn Obj).
Abbreviation returned_empty := (@returned_empty Item Val Exn Obj).

Implicit Types (env : engine) (st : state) (items : list Item)
  (kwargs : gmap string (kwval Obj)).

Lemma flat_items_concat (batches : list (list Z * list Item)) :
  flat_items batches = concat batches.*2.
Proof.
  unfold flat_items.
  assert (∀ acc, foldl (fun acc (b : list Z * list Item) => acc ++ b.2) acc batches
                 = acc ++ concat batches.*2) as Hgen; [|by rewrite Hgen].
  induction batches as [|b batches IH]; intros acc; simpl.
  - by rewrite app_nil_r.
  - by rewrite IH, app_assoc.
Qed.

(** Once the call has returned or raised nothing happens any more. *)
Lemma run_returned env acts st st' :
  ended st = true → run env acts st = Some st' → acts = [] ∧ st' = st.
Proof.
  intros Hret. destruct acts as [|a acts]; simpl.
  - by intros [= <-].
  - unfold step. by rewrite Hret.
Qed.

Lemma run_returned_empty env acts st :
  run env acts returned_empty = Some st → acts = [] ∧ st = returned_empty.
Proof. by apply run_returned. Qed.

(** The states in which a call can hand over to the event loop. *)
Lemma async_process_all_start env st0 :
  _async_process_all env = Ok st0 →
  (e_items env = [] ∧ st0 = returned_empty) ∨
  (e_items env ≠ [] ∧ 0 ≤ e_workers env ∧ st0 = scheduled env).
Proof.
  unfold _async_process_all, total_items.
  destruct (e_items env) as [|x l] eqn:Hitems; simpl.
  - intros [= <-]. by left.
  - destruct (Z.ltb_spec (e_workers env) 0); [done|]. intros [= <-].
    right. split; [done|]. split; [lia|]. done.
Qed.

Lemma process_batches_start batches workers max_retries timeout kwargs env st0 :
  process_batches batches workers max_retries timeout kwargs = Ok (env, st0) →
  ∃ rate,
    rate_limit_of kwargs = Ok rate ∧
    env = {| e_items := concat batches.*2; e_workers := workers;
             e_max_retries := max_retries; e_timeout := timeout;
             e_rate_limit_per_sec := rate;
             e_kwargs := delete "rate_limit_per_sec"%string kwargs |} ∧
    _async_process_all env = Ok st0.
Proof.
  unfold process_batches. destruct (rate_limit_of kwargs) as [rate|]; simpl; [|done].
  rewrite flat_items_concat.
  destruct (_async_process_all _) as [st|] eqn:Hst; simpl; [|done].
  intros [= <- <-]. eauto.
Qed.

Lemma parallel_process_env cpu_count items workers batch_size max_retries timeout
    kwargs env st0 :
  parallel_process cpu_count items workers batch_size max_retries timeout kwargs
    = Ok (env, st0) →
  e_workers env = determine_worker_count cpu_count workers ∧
  e_max_retries env = max_retries ∧
  e_timeout env = timeout ∧
  e_kwargs env = delete "rate_limit_per_sec"%string kwargs ∧
  rate_limit_of kwargs = Ok (e_rate_limit_per_sec env) ∧
  ((e_items env = [] ∧ st0 = returned_empty) ∨ (e_items env ≠ [] ∧ st0 = scheduled env)).
Proof.
  unfold parallel_process.
  destruct (create_batches items batch_size) as [batches|]; simpl; [|done].
  intros (rate & Hrate & -> & Hst)%process_batches_start. simpl.
  do 5 (split; [done|]).
  apply async_process_all_start in Hst.
  destruct Hst as [[? ?]|(? & ? & ?)]; [by left | by right].
Qed.

Lemma parallel_process_items cpu_count items workers batch_size max_retries timeout
    kwargs env st0 :
  1 ≤ adjusted_batch_size (Z.of_nat (length items)) batch_size →
  parallel_process cpu_count items workers batch_size max_retries timeout kwargs
    = Ok (env, st0) →
  e_items env = items.
Proof.
  intros Hsize. unfold parallel_process.
  destruct (create_batches_flat items batch_size Hsize) as (batches & -> & Hflat). simpl.
  intros (rate & Hrate & -> & Hst)%process_batches_start. done.
Qed.

Lemma parallel_process_total cpu_count items workers batch_size max_retries timeout
    kwargs rate :
  1 ≤ adjusted_batch_size (Z.of_nat (length items)) batch_size →
  rate_limit_of kwargs = Ok rate →
  ∃ env st0,
    parallel_process (Val := Val) (Exn := Exn)
      cpu_count items workers batch_size max_retries timeout kwargs = Ok (env, st0).
Proof.
  intros Hsize Hrate. unfold parallel_process.
  destruct (create_batches_flat items batch_size Hsize) as (batches & -> & _).
  simpl. unfold process_batches. rewrite Hrate. simpl.
  unfold _async_process_all. simpl.
  destruct (total_items _ =? 0)%nat; simpl; [eauto|].
  pose proof (determine_worker_count_pos cpu_count workers).
  destruct (Z.ltb_spec (determine_worker_count cpu_count workers) 0); [lia|].
  simpl. eauto.
Qed.
End Start.

(** ** Properties of every run *)

Section Runs.
Context {Item Val Exn Obj : Type} `{PyObject Obj} `{PyException Exn}.

Abbreviation engine := (@engine Item Obj).
Abbreviation state := (@state Item Val Exn Obj).
Abbreviation task := (@task Item Val Exn).
Abbreviation action := (action Val Exn).
Abbreviation phase := (phase Val Exn).
Abbreviation scheduled := (@scheduled Item Val Exn Obj).
Abbreviation returned_empty := (@returned_empty Item Val Exn Obj).

Implicit Types (env : engine) (st : state) (t : task) (a : action) (ph : phase)
  (items : list Item) (kwargs : gmap string (kwval Obj)).

Lemma sem_nonneg env acts st :
  0 ≤ e_workers env → run env acts (scheduled env) = Some st → 0 ≤ st_sem st.
Proof.
  intros Hw. revert acts st. apply run_ind; [done|].
  intros acts st a st' _ IH Hs.
  apply step_view in Hs as
    [_ [(-> & _ & _ & ->) | [(c & -> & _ & ->) | (i & t & ph' & Hi & Htr & Hgate & ->)]]];
    [done | by destruct c |].
  simpl. revert Hgate.
  destruct Htr as [Hg|Hg| |n|n v|n e Hn|n e Hn|ph Hrun Htmo]; simpl; intros Hgate;
    try lia.
  - specialize (Hgate eq_refl). lia.
  - rewrite Hrun. simpl. lia.
Qed.

Lemma settled_outcome acts i ph :
  trace_agrees i ph (item_events acts i) → is_terminal ph = true →
  slot_of ph = item_outcome acts i.
Proof.
  unfold item_outcome.
  destruct ph as [| | | |v|[e|]|]; simpl; try done;
    intros (evs' & -> & _) _; by rewrite last_snoc.
Qed.

Lemma returned_terminal env st i t :
  counters_inv env st → st_returned st = true → st_crash st = None →
  st_tasks st !! i = Some t → is_terminal (t_phase t) = true.
Proof.
  intros [_ _ _ Hret] Hr Hc Hi. eapply count_where_all; [|done].
  apply Hret. unfold returned_normally. by rewrite Hr, Hc.
Qed.

(** A call on some items that returns although a task ended with an
    exception has a limiter that refuses every item. *)
Lemma returned_crash env acts st :
  run env acts (scheduled env) = Some st → e_items env ≠ [] →
  st_returned st = true →
  (st_crash st = None ∧ limiter_raises env = false) ∨
  (st_crash st = Some LimiterRaised ∧ limiter_raises env = true).
Proof.
  intros Hrun Hne Hret.
  pose proof (run_crash_inv _ _ _ Hrun) as Hcrash.
  destruct (run_invariants _ _ _ Hrun) as (Hshape & Hcnt & _).
  destruct (crash_returned _ _ Hcrash Hret) as [_ [Hc|Hc]].
  - left. split; [done|].
    destruct (lookup_lt_is_Some_2 (st_tasks st) 0) as [t Ht].
    { rewrite (shape_tasks _ _ Hshape). unfold total_items.
      destruct (e_items env); [done | simpl; lia]. }
    pose proof (returned_terminal _ _ _ _ Hcnt Hret Hc Ht) as Hterm.
    pose proof (crash_mode _ _ Hcrash _ _ Ht) as Hmode.
    destruct (limiter_raises env); [|done].
    destruct Hmode as [Hph|Hph]; by rewrite Hph in Hterm.
  - right. split; [done|]. by apply (crash_limiter _ _ Hcrash).
Qed.

(** With a limiter that refuses every item nothing is started: no
    invocation, no write, no line for an item, no completion. *)
Lemma refusing_limiter_idle env acts st :
  run env acts (scheduled env) = Some st → e_items env ≠ [] →
  limiter_raises env = true →
  st_calls st = [] ∧ st_writes st = [] ∧ st_errors st = [] ∧
  st_completed st = 0%nat ∧ st_updates st = [] ∧
  st_results st = replicate (total_items env) None ∧
  (∀ i, (i < total_items env)%nat → item_events acts i = []) ∧
  st_raised st = false.
Proof.
  intros Hrun Hne Hr.
  pose proof (run_crash_inv _ _ _ Hrun) as Hcrash.
  destruct (run_invariants _ _ _ Hrun) as (Hshape & Hcnt & Hcalls & Hlogs & Htrace).
  pose proof (shape_tasks _ _ Hshape) as Hlen.
  assert (∀ i t, st_tasks st !! i = Some t →
            t_phase t = AtLimiter ∨ t_phase t = Refused) as Hmode.
  { intros i t Hi. pose proof (crash_mode _ _ Hcrash _ _ Hi) as Hm.
    by rewrite Hr in Hm. }
  assert (count_where is_terminal (st_tasks st) = 0%nat) as Hzero.
  { apply count_where_none. intros i t Hi. by destruct (Hmode _ _ Hi) as [-> | ->]. }
  assert (0 < total_items env)%nat as Hpos.
  { unfold total_items. destruct (e_items env); [done | simpl; lia]. }
  split.
  { destruct (st_calls st) as [|c calls] eqn:Hc; [done|]. exfalso.
    destruct (calls_args _ _ Hcalls c) as [_ Hitem]; [rewrite Hc; by left|].
    destruct (lookup_lt_is_Some_2 (st_tasks st) (c_idx c)) as [t Ht].
    { rewrite Hlen. by eapply lookup_lt_Some. }
    pose proof (calls_attempts _ _ Hcalls _ _ Ht) as Hatt. rewrite Hc in Hatt.
    unfold invocations in Hatt. simpl in Hatt. rewrite Nat.eqb_refl in Hatt.
    by destruct (Hmode _ _ Ht) as [Hph|Hph]; rewrite Hph in Hatt. }
  split.
  { destruct (st_writes st) as [|[p q] writes] eqn:Hw; [done|]. exfalso.
    destruct (logs_writes _ _ Hlogs p q) as (_ & t & Ht & Hst); [rewrite Hw; by left|].
    by destruct (Hmode _ _ Ht) as [Hph|Hph]; rewrite Hph in Hst. }
  split.
  { destruct (st_errors st) as [|[[j m] e] errors] eqn:He; [done|]. exfalso.
    destruct (logs_errors _ _ Hlogs j m e) as (_ & _ & t & Ht & Hph);
      [rewrite He; by left|].
    destruct (Hmode _ _ Ht); congruence. }
  split; [by rewrite (cnt_completed _ _ Hcnt)|].
  split.
  { rewrite (cnt_updates _ _ Hcnt), (cnt_completed _ _ Hcnt), Hzero.
    destruct (returned_normally st) eqn:Hn; [|done].
    pose proof (cnt_returned _ _ Hcnt Hn). lia. }
  split.
  { rewrite (shape_results _ _ Hshape). apply list_eq. intros i.
    rewrite list_lookup_fmap.
    destruct (st_tasks st !! i) as [t|] eqn:Ht; simpl.
    - rewrite lookup_replicate_2 by (rewrite <- Hlen; by eapply lookup_lt_Some).
      by destruct (Hmode _ _ Ht) as [-> | ->].
    - symmetry. apply lookup_replicate_None. rewrite <- Hlen. by apply lookup_ge_None. }
  split.
  { intros i Hi. destruct (lookup_lt_is_Some_2 (st_tasks st) i) as [t Ht]; [lia|].
    pose proof (Htrace _ _ Ht) as Hag. by destruct (Hmode _ _ Ht) as [Hph|Hph];
      rewrite Hph in Hag. }
  destruct (st_raised st) eqn:Hrai; [|done]. exfalso.
  destruct (crash_raised _ _ Hcrash Hrai) as [e Hc].
  destruct (crash_logger _ _ Hcrash _ Hc) as (_ & i & t & Ht & Hph).
  destruct (Hmode _ _ Ht); congruence.
Qed.

(** No task ends with an exception when the limiter grants and every
    exception text can be printed. *)
Lemma printable_run env acts st :
  (∀ e : Exn, exn_markup_ok e = true) → limiter_raises env = false →
  run env acts (scheduled env) = Some st →
  st_crash st = None ∧ st_raised st = false.
Proof.
  intros Hok Hlr Hrun.
  pose proof (run_crash_inv _ _ _ Hrun) as Hcrash.
  assert (st_crash st = None) as Hc.
  { destruct (st_crash st) as [[|f]|] eqn:Hc; [| |done].
    - pose proof (crash_limiter _ _ Hcrash Hc). congruence.
    - destruct (crash_logger _ _ Hcrash _ Hc) as [Hlog _].
      destruct f as [e|]; simpl in Hlog; [|done]. rewrite Hok in Hlog. done. }
  split; [done|].
  destruct (st_raised st) eqn:Hrai; [|done].
  destruct (crash_raised _ _ Hcrash Hrai) as [e He]. congruence.
Qed.



Lemma lookup_result env st i t :
  shape_inv env st → st_tasks st !! i = Some t →
  st_results st !! i = Some (slot_of (t_phase t)).
Proof. intros [_ _ ->] Hi. by rewrite list_lookup_fmap, Hi. Qed.

(** The index a task writes to is a position of [results]: the assignment
    [results[idx] = ...] cannot raise. *)
Lemma slot_in_range env acts st i t :
  run env acts (scheduled env) = Some st → st_tasks st !! i = Some t →
  (t_idx t < length (st_results st))%nat.
Proof.
  intros Hrun Hi. destruct (run_invariants _ _ _ Hrun) as (Hshape & _).
  destruct (shape_idx _ _ Hshape _ _ Hi) as [-> _].
  rewrite (shape_results _ _ Hshape), length_fmap. by eapply lookup_lt_Some.
Qed.


Lemma invoke_holds_permit env i st st' :
  step env (Invoke i) st = Some st' →
  ∃ t, st_tasks st !! i = Some t ∧ is_running (t_phase t) = true.
Proof.
  unfold step. destruct (ended st); [done|].
  destruct (st_tasks st !! i) as [t|]; simpl; [|done].
  destruct (t_phase t) eqn:Hph; try done. intros _. exists t. by rewrite Hph.
Qed.

(** The facts about a returned run that the claims share. *)
Lemma returned_slots env acts st i :
  run env acts (scheduled env) = Some st → st_returned st = true →
  st_crash st = None →
  (i < length (e_items env))%nat →
  ∃ t, st_tasks st !! i = Some t ∧ is_terminal (t_phase t) = true ∧
       trace_agrees i (t_phase t) (item_events acts i) ∧
       st_results st !! i = Some (slot_of (t_phase t)) ∧
       slot_of (t_phase t) = item_outcome acts i.
Proof.
  intros Hrun Hret Hc Hi.
  destruct (run_invariants _ _ _ Hrun) as (Hshape & Hcnt & _ & _ & Htrace).
  destruct (lookup_lt_is_Some_2 (st_tasks st) i) as [t Ht].
  { by rewrite (shape_tasks _ _ Hshape). }
  pose proof (returned_terminal _ _ _ _ Hcnt Hret Hc Ht) as Hterm.
  exists t. repeat split; try done.
  - by apply Htrace.
  - by eapply lookup_result.
  - apply settled_outcome; [by apply Htrace | done].
Qed.


Lemma timeout_settles acts i ph :
  trace_agrees i ph (item_events acts i) → is_terminal ph = true →
  TimesOut i ∈ acts → ph = Failed TimeoutError.
Proof.
  intros Hagree Hterm Hin.
  assert (TimesOut i ∈ item_events acts i) as Hev.
  { apply list_elem_of_In, filter_In. split; [by apply list_elem_of_In|].
    simpl. apply Nat.eqb_refl. }
  destruct ph as [| | | |v|[e|]|]; simpl in *; try done;
    destruct Hagree as (evs' & Heq & Hraises); rewrite Heq in Hev;
    apply elem_of_app in Hev as [Hev|Hev%list_elem_of_singleton]; try done;
    rewrite Forall_forall in Hraises; by apply Hraises in Hev.
Qed.


(** *** Runs that follow a given process function *)

Implicit Types (func : Item → gmap string (kwval Obj) → Z → outcome Val Exn).






End Runs.

(** ** The claims about the engine *)

Section Claims.
Context {Item Val Exn Obj : Type} `{PyObject Obj} `{PyException Exn}.

Abbreviation engine := (@engine Item Obj).
Abbreviation state := (@state Item Val Exn Obj).
Abbreviation task := (@task Item Val Exn).
Abbreviation action := (action Val Exn).
Abbreviation scheduled := (@scheduled Item Val Exn Obj).
Abbreviation returned_empty := (@returned_empty Item Val Exn Obj).

Implicit Types (env : engine) (st : state) (t : task) (a : action)
  (items : list Item) (kwargs : gmap string (kwval Obj)).



(** C5: in every run started by [parallel_process] with [k] workers
    ([k = determine_worker_count(workers)]), at most [k] items are RUNNING
    at any time: the semaphore value is never negative, for a non-empty
    input the free permits and the RUNNING items always add up to [k], and
    the process function is only ever invoked by a task that is RUNNING,
    that is, after it took a permit and before it settled. *)
Theorem running_items_bounded_by_workers
    cpu_count items workers batch_size max_retries timeout kwargs env (st0 : state)
    acts st :
  parallel_process cpu_count items workers batch_size max_retries timeout kwargs
    = Ok (env, st0) →
  run env acts st0 = Some st →
  let k := determine_worker_count cpu_count workers in
  Z.of_nat (count_where is_running (st_tasks st)) ≤ k ∧
  0 ≤ st_sem st ∧
  (e_items env ≠ [] → st_sem st + Z.of_nat (count_where is_running (st_tasks st)) = k) ∧
  (∀ i st', step env (Invoke i) st = Some st' →
     ∃ t, st_tasks st !! i = Some t ∧ is_running (t_phase t) = true).
Proof.
  intros Hpp Hrun k.
  pose proof (determine_worker_count_pos cpu_count workers).
  destruct (parallel_process_env _ _ _ _ _ _ _ _ _ Hpp)
    as (Hw & _ & _ & _ & _ & [[Hnil ->]|[Hne ->]]).
  - apply run_returned_empty in Hrun as [-> ->]. unfold count_where. simpl.
    split; [subst k; lia|]. split; [done|]. split; [done|].
    intros i st'. apply invoke_holds_permit.
  - destruct (run_invariants _ _ _ Hrun) as (_ & Hcnt & _).
    pose proof (cnt_sem _ _ Hcnt) as Hsem.
    assert (0 ≤ st_sem st) by (eapply sem_nonneg; [|done]; lia).
    subst k. rewrite <- Hw.
    split; [lia|]. split; [done|]. split; [done|].
    intros i st'. apply invoke_holds_permit.
Qed.

(** C6: on an empty list [parallel_process] returns the empty list at once:
    the state it returns in has no task, no invocation of the process
    function and no progress update, and no event can follow. *)
Theorem empty_input_returns_empty
    cpu_count workers batch_size max_retries timeout kwargs rate :
  rate_limit_of kwargs = Ok rate →
  ∃ env (st0 : state),
    parallel_process cpu_count ([] : list Item) workers batch_size max_retries
      timeout kwargs = Ok (env, st0) ∧
    st_returned st0 = true ∧ st_results st0 = [] ∧
    st_tasks st0 = [] ∧ st_calls st0 = [] ∧ st_updates st0 = [] ∧
    ∀ acts st, run env acts st0 = Some st → acts = [] ∧ st = st0.
Proof.
  intros Hrate. unfold parallel_process, create_batches, process_batches. simpl.
  rewrite Hrate. simpl. eexists _, _. split; [reflexivity|].
  do 5 (split; [done|]). intros acts st. apply run_returned_empty.
Qed.


(** C9: take two returned runs of the same [_async_process_all] call. If
    in the first the last attempt on item [i] returned None and in the
    second item [i] failed for good (its last attempt raised, or it timed
    out), slot [i] holds None in both, although the item is SUCCEEDED in
    the one and FAILED in the other; and if the other items have the same
    outcomes the two result lists are equal. *)
Theorem none_success_indistinguishable_from_failure
    env (st0 : state) acts1 st1 acts2 st2 i :
  _async_process_all env = Ok st0 →
  run env acts1 st0 = Some st1 → st_returned st1 = true →
  run env acts2 st0 = Some st2 → st_returned st2 = true →
  (i < length (e_items env))%nat →
  last (item_events acts1 i) = Some (Returns i None) →
  (∃ e, last (item_events acts2 i) = Some (Raises i e)) ∨
    last (item_events acts2 i) = Some (TimesOut i) →
  st_results st1 !! i = Some None ∧
  st_results st2 !! i = Some None ∧
  (∃ t1, st_tasks st1 !! i = Some t1 ∧ t_phase t1 = Succeeded None) ∧
  (∃ t2 e, st_tasks st2 !! i = Some t2 ∧ t_phase t2 = Failed e) ∧
  ((∀ j, j ≠ i → item_outcome acts1 j = item_outcome acts2 j) →
   st_results st1 = st_results st2).
Proof.
  intros Hstart Hrun1 Hret1 Hrun2 Hret2 Hi Hlast1 Hlast2.
  destruct (async_process_all_start _ _ Hstart) as [[Hnil ->]|(Hne & _ & ->)].
  { rewrite Hnil in Hi. simpl in Hi. lia. }
  assert (limiter_raises env = false) as Hlr.
  { destruct (limiter_raises env) eqn:Hlr; [|done].
    destruct (refusing_limiter_idle _ _ _ Hrun1 Hne Hlr) as (_ & _ & _ & _ & _ & _ & Hev & _).
    by rewrite Hev in Hlast1. }
  assert (st_crash st1 = None) as Hc1.
  { destruct (returned_crash _ _ _ Hrun1 Hne Hret1) as [[? _]|[_ ?]]; congruence. }
  assert (st_crash st2 = None) as Hc2.
  { destruct (returned_crash _ _ _ Hrun2 Hne Hret2) as [[? _]|[_ ?]]; congruence. }
  destruct (returned_slots _ _ _ _ Hrun1 Hret1 Hc1 Hi)
    as (t1 & Ht1 & Hterm1 & Hagree1 & Hres1 & Hout1).
  destruct (returned_slots _ _ _ _ Hrun2 Hret2 Hc2 Hi)
    as (t2 & Ht2 & Hterm2 & Hagree2 & Hres2 & Hout2).
  assert (item_outcome acts1 i = None) as Ho1.
  { unfold item_outcome. by rewrite Hlast1. }
  assert (item_outcome acts2 i = None) as Ho2.
  { unfold item_outcome. by destruct Hlast2 as [[e ->]| ->]. }
  split; [by rewrite Hres1, Hout1, Ho1|].
  split; [by rewrite Hres2, Hout2, Ho2|].
  split; [|split].
  - exists t1. split; [done|].
    destruct (t_phase t1) as [| | | |v|[e|]|]; simpl in *; try done;
      destruct Hagree1 as (evs' & Heq & _); rewrite Heq, last_snoc in Hlast1;
      congruence.
  - destruct (t_phase t2) as [| | | |v|e|] eqn:Hph; simpl in *; try done; [|by eauto].
    destruct Hagree2 as (evs' & Heq & _). rewrite Heq, last_snoc in Hlast2.
    destruct Hlast2 as [[e ?]|?]; congruence.
  - intros Hothers. apply list_eq. intros j.
    destruct (decide (j = i)) as [->|Hj]; [by rewrite Hres1, Hres2, Hout1, Hout2, Ho1, Ho2|].
    destruct (decide (j < length (e_items env))%nat) as [Hlt|Hge].
    + destruct (returned_slots _ _ _ _ Hrun1 Hret1 Hc1 Hlt) as (? & _ & _ & _ & -> & ->).
      destruct (returned_slots _ _ _ _ Hrun2 Hret2 Hc2 Hlt) as (? & _ & _ & _ & -> & ->).
      by rewrite Hothers.
    + destruct (run_invariants _ _ _ Hrun1) as (Hs1 & _).
      destruct (run_invariants _ _ _ Hrun2) as (Hs2 & _).
      rewrite !lookup_ge_None_2; [done| |];
        rewrite ?(shape_results _ _ Hs1), ?(shape_results _ _ Hs2), length_fmap,
          ?(shape_tasks _ _ Hs1), ?(shape_tasks _ _ Hs2); unfold total_items; lia.
Qed.

End Claims.

(** ** Further properties of batching *)

(** The batches of a usable size, by position. *)
Lemma create_batches_lookup {A} (items : list A) (batch_size : Z) :
  let total := Z.of_nat (length items) in
  let size := adjusted_batch_size total batch_size in
  1 ≤ size →
  ∃ batches,
    create_batches items batch_size = Ok batches ∧
    ∀ k : nat,
      batches !! k =
        if Z.of_nat k * size <? total
        then Some (py_range1 (Z.of_nat k * size) (Z.min ((Z.of_nat k + 1) * size) total),
                   take (Z.to_nat size) (drop (Z.to_nat (Z.of_nat k * size)) items))
        else None.
Proof.
  intros total size Hsize.
  unfold create_batches, py_range. fold total. fold size.
  destruct (Z.eqb_spec size 0); [lia|]. destruct (Z.ltb_spec 0 size); [|lia].
  simpl. eexists. split; [reflexivity|].
  intros k. rewrite list_lookup_fmap, range_up_lookup by lia.
  rewrite Z.add_0_l.
  destruct (Z.ltb_spec (Z.of_nat k * size) total) as [Hk|Hk]; [|done].
  simpl. rewrite py_slice_forward by lia.
  do 3 f_equal; lia.
Qed.

(** A size below 1 that [range] accepts is negative: no batch at all. *)
Lemma create_batches_unusable {A} (items : list A) (batch_size : Z) batches :
  create_batches items batch_size = Ok batches →
  adjusted_batch_size (Z.of_nat (length items)) batch_size < 1 →
  batches = [].
Proof.
  unfold create_batches, py_range. intros Hb Hsize.
  destruct (Z.eqb_spec (adjusted_batch_size (Z.of_nat (length items)) batch_size) 0);
    [done|].
  destruct (Z.ltb_spec 0 (adjusted_batch_size (Z.of_nat (length items)) batch_size));
    [lia|].
  simpl in Hb. injection Hb as <-.
  replace (Z.to_nat (0 - Z.of_nat (length items))) with 0%nat by lia. done.
Qed.

(** X1: whenever [create_batches] returns, every batch is non-empty and no
    longer than the adjusted size, its index list is as long as its item
    list, index [j] of batch [k] is [k * size + j], lies inside the input
    and stands beside the input item at that position; every batch but
    the last has exactly [size] items; and for a usable size there are
    [ceil(total / size)] batches. *)
Theorem create_batches_pairs_indices_with_items {A} (items : list A) (batch_size : Z)
    batches :
  create_batches items batch_size = Ok batches →
  let total := Z.of_nat (length items) in
  let size := adjusted_batch_size total batch_size in
  (∀ k b, batches !! k = Some b →
     b.2 ≠ [] ∧
     Z.of_nat (length b.2) ≤ size ∧
     length b.1 = length b.2 ∧
     (Z.of_nat (S k) < Z.of_nat (length batches) → Z.of_nat (length b.2) = size) ∧
     ∀ j idx, b.1 !! j = Some idx →
       idx = Z.of_nat k * size + Z.of_nat j ∧ 0 ≤ idx < total ∧
       b.2 !! j = items !! Z.to_nat idx) ∧
  (1 ≤ size → Z.of_nat (length batches) = (total + size - 1) / size).
Proof.
  intros Hb total size.
  destruct (Z.le_gt_cases 1 size) as [Hsize|Hsize].
  2: { rewrite (create_batches_unusable _ _ _ Hb) by (fold total; fold size; lia).
       split; [done|lia]. }
  destruct (create_batches_lookup items batch_size Hsize) as (batches' & Hb' & Hlook).
  fold total in Hlook. fold size in Hlook.
  rewrite Hb in Hb'. injection Hb' as <-.
  assert (0 ≤ total) as Htotal by (subst total; lia).
  split.
  - intros k b Hk. rewrite Hlook in Hk.
    destruct (Z.ltb_spec (Z.of_nat k * size) total) as [Hlt|]; [|done].
    injection Hk as <-. simpl.
    assert (0 ≤ Z.of_nat k * size) as Hk0 by (apply Z.mul_nonneg_nonneg; lia).
    assert (length (take (Z.to_nat size) (drop (Z.to_nat (Z.of_nat k * size)) items))
            = Z.to_nat (Z.min size (total - Z.of_nat k * size))) as Hlen.
    { rewrite length_take, length_drop. subst total. lia. }
    split; [|split; [|split; [|split]]].
    + intros Hnil. rewrite Hnil in Hlen. simpl in Hlen. lia.
    + lia.
    + rewrite py_range1_seq, length_fmap, length_seq, Hlen. lia.
    + intros Hnext.
      pose proof (Hlook (S k)) as Hk1.
      destruct (Z.ltb_spec (Z.of_nat (S k) * size) total) as [Hlt1|Hge1].
      * rewrite Hlen. lia.
      * apply lookup_ge_None in Hk1. lia.
    + intros j idx Hj. rewrite py_range1_seq, list_lookup_fmap in Hj.
      destruct (seq _ _ !! j) as [j'|] eqn:Hseq; [|done].
      apply lookup_seq in Hseq as [-> Hjlt]. injection Hj as <-. simpl.
      split; [lia|]. split; [lia|].
      rewrite lookup_take_lt by lia. rewrite lookup_drop. f_equal. lia.
  - intros _.
    pose proof (Hlook (length batches)) as Hend.
    rewrite (lookup_ge_None_2 batches (length batches)) in Hend by lia.
    destruct (Z.ltb_spec (Z.of_nat (length batches) * size) total) as [|Hge]; [done|].
    destruct (length batches) as [|n] eqn:Hn.
    + assert (total = 0) as -> by lia.
      symmetry. apply Z.div_small. lia.
    + pose proof (Hlook n) as Hlast.
      destruct (Z.ltb_spec (Z.of_nat n * size) total) as [Hlt|].
      2: { apply lookup_ge_None in Hlast. lia. }
      apply Z.div_unique with (r := total + size - 1 - Z.of_nat (S n) * size).
      * left. lia.
      * lia.
Qed.

Section MoreStart.
Context {Item Val Exn Obj : Type} `{PyObject Obj} `{PyException Exn}.

Abbreviation engine := (@engine Item Obj).
Abbreviation state := (@state Item Val Exn Obj).
Abbreviation scheduled := (@scheduled Item Val Exn Obj).

Implicit Types (env : engine) (st : state)
  (items : list Item) (kwargs : gmap string (kwval Obj)).

(** [process_batches] reads the concatenation of the item lists only. *)
Lemma process_batches_flat (batches batches' : list (list Z * list Item))
    workers max_retries timeout kwargs :
  concat batches.*2 = concat batches'.*2 →
  process_batches (Val := Val) (Exn := Exn) batches workers max_retries timeout kwargs
  = process_batches batches' workers max_retries timeout kwargs.
Proof.
  intros Hflat. unfold process_batches. by rewrite !flat_items_concat, Hflat.
Qed.

(** X2: [process_batches] flattens the batches and never looks at their
    index lists, so the batch size has no effect on what [parallel_process]
    does: two usable batch sizes start the same call, which is also the
    call [process_batches] makes on the single batch of all items. *)
Theorem batch_size_does_not_affect_processing
    cpu_count items workers batch_size batch_size' max_retries timeout kwargs :
  1 ≤ adjusted_batch_size (Z.of_nat (length items)) batch_size →
  1 ≤ adjusted_batch_size (Z.of_nat (length items)) batch_size' →
  parallel_process (Val := Val) (Exn := Exn)
    cpu_count items workers batch_size max_retries timeout kwargs
  = parallel_process cpu_count items workers batch_size' max_retries timeout kwargs ∧
  parallel_process (Val := Val) (Exn := Exn)
    cpu_count items workers batch_size max_retries timeout kwargs
  = process_batches [([], items)] (determine_worker_count cpu_count workers)
      max_retries timeout kwargs.
Proof.
  intros Hsize Hsize'.
  destruct (create_batches_flat items batch_size Hsize) as (batches & Hb & Hflat).
  destruct (create_batches_flat items batch_size' Hsize') as (batches' & Hb' & Hflat').
  unfold parallel_process. rewrite Hb, Hb'. simpl. split.
  - apply process_batches_flat. by rewrite Hflat, Hflat'.
  - apply process_batches_flat. rewrite Hflat. simpl. by rewrite app_nil_r.
Qed.

(** The quotient by 10 moves at the multiples of 10. *)
End MoreStart.

(** ** Running the coroutine *)

Section Coroutine.
Context {Item Val Exn Obj : Type} `{PyObject Obj} `{PyException Exn}.

Implicit Types (env : @engine Item Obj) (acts : list (action Val Exn)).



End Coroutine.

(** ** Further properties of a run *)

Section MoreRuns.
Context {Item Val Exn Obj : Type} `{PyObject Obj} `{PyException Exn}.

Abbreviation engine := (@engine Item Obj).
Abbreviation state := (@state Item Val Exn Obj).
Abbreviation task := (@task Item Val Exn).
Abbreviation action := (action Val Exn).
Abbreviation phase := (phase Val Exn).
Abbreviation scheduled := (@scheduled Item Val Exn Obj).
Abbreviation returned_empty := (@returned_empty Item Val Exn Obj).

Implicit Types (env : engine) (st : state) (t : task) (a : action) (ph : phase)
  (items : list Item) (kwargs : gmap string (kwval Obj)).

Lemma raises_snoc (acts : list action) a i :
  raises (acts ++ [a]) i = (raises acts i + (if raised_by i a then 1 else 0))%nat.
Proof.
  unfold raises. rewrite List.filter_app, length_app. simpl.
  by destruct (raised_by i a).
Qed.

Lemma limiter_passes_snoc (acts : list action) a i :
  limiter_passes (acts ++ [a]) i
  = (limiter_passes acts i + (if passed_by i a then 1 else 0))%nat.
Proof.
  unfold limiter_passes. rewrite List.filter_app, length_app. simpl.
  by destruct (passed_by i a).
Qed.

(** A run continued from a reachable state is a run from the start. *)
Lemma run_continue env acts acts' st st' :
  run env acts (scheduled env) = Some st → run env acts' st = Some st' →
  run env (acts ++ acts') (scheduled env) = Some st'.
Proof. intros Hrun Hrun'. rewrite run_app, Hrun. done. Qed.

(** A settled task takes part in no further event. *)
Lemma settled_task_stays env acts' st st' i t :
  run env acts' st = Some st' →
  st_tasks st !! i = Some t → is_terminal (t_phase t) = true →
  st_tasks st' !! i = Some t.
Proof.
  revert st'. induction acts' as [|a acts' IH] using rev_ind; intros st' Hrun Hi Hterm.
  - simpl in Hrun. by injection Hrun as <-.
  - apply run_snoc in Hrun as (st1 & Hrun & Hs).
    specialize (IH _ Hrun Hi Hterm).
    apply step_view in Hs as
      [_ [(-> & _ & _ & ->) | [(c & -> & _ & ->) | (j & t' & ph' & Hj & Htr & _ & ->)]]];
      [done | by destruct c |].
    rewrite effect_lookup by done. case_decide as Hij; [|done].
    subst j. rewrite IH in Hj. injection Hj as <-.
    apply transition_source in Htr. congruence.
Qed.

(** X4: once an item is settled (SUCCEEDED or FAILED) no later event of
    the run touches it: its task and its result slot are the same in
    every later state, and the slot holds the item's outcome. An item not
    yet settled has None in its slot. *)
Theorem settled_item_is_final env (st0 : state) acts st acts' st' i t :
  _async_process_all env = Ok st0 →
  run env acts st0 = Some st →
  st_tasks st !! i = Some t → is_terminal (t_phase t) = true →
  run env acts' st = Some st' →
  st_tasks st' !! i = Some t ∧
  st_results st !! i = Some (slot_of (t_phase t)) ∧
  st_results st' !! i = Some (slot_of (t_phase t)) ∧
  (∀ j t', st_tasks st !! j = Some t' → is_terminal (t_phase t') = false →
     st_results st !! j = Some None).
Proof.
  intros Hstart Hrun Hi Hterm Hrun'.
  destruct (async_process_all_start _ _ Hstart) as [[Hnil ->]|(Hne & _ & ->)].
  { apply run_returned_empty in Hrun as [-> ->]. done. }
  pose proof (settled_task_stays _ _ _ _ _ _ Hrun' Hi Hterm) as Hi'.
  pose proof (run_continue _ _ _ _ _ Hrun Hrun') as Hall.
  destruct (run_invariants _ _ _ Hrun) as (Hshape & _).
  destruct (run_invariants _ _ _ Hall) as (Hshape' & _).
  split; [done|]. split; [by eapply lookup_result|].
  split; [by eapply lookup_result|].
  intros j t' Hj Hpending. rewrite (lookup_result _ _ _ _ Hshape Hj).
  by destruct (t_phase t').
Qed.

(** *** The error log *)




(** *** Retries and exceptions *)

(** Invocations and exceptions stay in step along a run. *)
Lemma retry_inv_run env acts st :
  run env acts (scheduled env) = Some st → retry_inv acts st.
Proof.
  revert acts st. apply run_ind.
  - intros i. destruct (st_tasks (scheduled env) !! i) as [t|] eqn:Ht; [|done].
    apply scheduled_lookup in Ht as (_ & _ & ->). by destruct (limited env).
  - intros acts st a st' Hrun IH Hs i.
    destruct (run_invariants _ _ _ Hrun) as (Hshape & _).
    apply step_view in Hs as
      [_ [(-> & _ & _ & ->) | [(c & -> & _ & ->) | (j & t & ph' & Hj & Htr & _ & ->)]]].
    { specialize (IH i). rewrite raises_snoc. simpl. by rewrite Nat.add_0_r. }
    { specialize (IH i). rewrite raises_snoc. simpl. rewrite Nat.add_0_r.
      by destruct c. }
    destruct (shape_idx _ _ Hshape _ _ Hj) as [Htj _].
    specialize (IH i). rewrite effect_lookup by done. rewrite raises_snoc.
    case_decide as Hij.
    + destruct Hij. unfold retry_inv in IH. rewrite Hj in IH. simpl. revert IH.
      destruct Htr as [Hg|Hg| |n|n v|n e Hn|n e Hn|ph Hrunning Htmo]; simpl;
        rewrite ?invocations_snoc; simpl; rewrite ?Htj, ?Nat.eqb_refl; try lia.
      destruct ph as [| |n|n| | |]; simpl in *; try done; lia.
    + assert (raised_by i a = false) as ->.
      { destruct Htr; simpl; try done; by apply Nat.eqb_neq. }
      assert (invocations i (st_calls (effect env j t ph' st)) = invocations i (st_calls st))
        as ->.
      { simpl. destruct ph'; try done. rewrite invocations_snoc. simpl.
        rewrite Htj. destruct (Nat.eqb_spec j i); [done|lia]. }
      by rewrite Nat.add_0_r.
Qed.

(** X6: the process function is invoked again on an item only after an
    attempt on it has raised: the invocations on item [i] number the
    exceptions it raised, or one more, and never more than the attempts
    the retry wrapper allows; an item that succeeded was invoked once more
    than it raised, an item that exhausted its attempts as often as it
    raised. *)
Theorem retries_follow_exceptions env (st0 : state) acts st i :
  _async_process_all env = Ok st0 →
  run env acts st0 = Some st →
  (raises acts i ≤ invocations i (st_calls st) ≤ S (raises acts i))%nat ∧
  (Z.of_nat (raises acts i) ≤ max_attempts (e_max_retries env)) ∧
  (∀ t v, st_tasks st !! i = Some t → t_phase t = Succeeded v →
     invocations i (st_calls st) = S (raises acts i)) ∧
  (∀ t e, st_tasks st !! i = Some t → t_phase t = Failed (ProcessError e) →
     invocations i (st_calls st) = raises acts i).
Proof.
  intros Hstart Hrun.
  destruct (async_process_all_start _ _ Hstart) as [[Hnil ->]|(Hne & _ & ->)].
  { apply run_returned_empty in Hrun as [-> ->]. unfold raises, invocations.
    simpl. unfold max_attempts. split; [lia|]. split; [lia|]. done. }
  pose proof (retry_inv_run _ _ _ Hrun i) as Hinv.
  destruct (run_invariants _ _ _ Hrun) as (_ & _ & Hcalls & _).
  destruct (st_tasks st !! i) as [t|] eqn:Ht.
  - pose proof (calls_attempts _ _ Hcalls _ _ Ht) as Hatt.
    split; [|split; [|split]].
    + destruct (t_phase t) as [| | | | |[e|]|]; simpl in Hinv; lia.
    + destruct (t_phase t) as [| | | | |[e|]|]; simpl in Hinv, Hatt;
        unfold max_attempts in *; lia.
    + intros t' v [= <-] Hph. by rewrite Hph in Hinv.
    + intros t' e [= <-] Hph. by rewrite Hph in Hinv.
  - destruct Hinv as [-> ->]. unfold max_attempts. split; [lia|]. split; [lia|]. done.
Qed.

(** *** The rate limiter *)

(** Passages of the limiter along a run. *)
Lemma limiter_inv_run env acts st :
  run env acts (scheduled env) = Some st → limiter_inv env acts st.
Proof.
  revert acts st. apply run_ind.
  - intros i. destruct (st_tasks (scheduled env) !! i) as [t|] eqn:Ht; [|done].
    apply scheduled_lookup in Ht as (_ & _ & ->). by destruct (limited env).
  - intros acts st a st' Hrun IH Hs i.
    apply step_view in Hs as
      [_ [(-> & _ & _ & ->) | [(c & -> & _ & ->) | (j & t & ph' & Hj & Htr & _ & ->)]]].
    { specialize (IH i). rewrite limiter_passes_snoc. simpl. by rewrite Nat.add_0_r. }
    { specialize (IH i). rewrite limiter_passes_snoc. simpl. rewrite Nat.add_0_r.
      by destruct c. }
    specialize (IH i). rewrite effect_lookup by done. rewrite limiter_passes_snoc.
    case_decide as Hij.
    + destruct Hij. rewrite Hj in IH. simpl. revert IH.
      destruct Htr as [Hg|Hg| |n|n v|n e Hn|n e Hn|ph Hrunning Htmo]; simpl;
        rewrite ?Nat.eqb_refl, ?Nat.add_0_r; try done.
      * intros [-> ->]. done.
      * intros [Hl ->]. split; [|done]. by apply limiter_raises_spec.
      * destruct ph; simpl in *; done.
    + assert (passed_by i a = false) as ->.
      { destruct Htr; simpl; try done; by apply Nat.eqb_neq. }
      by rewrite Nat.add_0_r.
Qed.


(** *** The timeout *)

(** [asyncio.wait_for] is only used for a positive timeout. *)
Lemma timeout_needs_positive env st st' i :
  step env (TimesOut i) st = Some st' → 0 < e_timeout env.
Proof.
  intros Hs.
  apply step_view in Hs as
    [_ [(? & _) | [(c & ? & _) | (j & t & ph' & _ & Htr & _)]]]; [done..|].
  by inversion Htr.
Qed.

Lemma no_timeout_event env acts st :
  e_timeout env ≤ 0 → run env acts (scheduled env) = Some st →
  ∀ i, TimesOut i ∉ acts.
Proof.
  intros Htmo. revert acts st.
  apply (run_ind env (scheduled env) (fun acts _ => ∀ i, TimesOut i ∉ acts)).
  - intros i. apply not_elem_of_nil.
  - intros acts st a st' _ IH Hs i [Hin | Hin%list_elem_of_singleton]%elem_of_app.
    + by apply (IH i).
    + subst a. apply timeout_needs_positive in Hs. lia.
Qed.

(** X8: a timeout that is zero or negative switches the timeout off
    ([if timeout and timeout > 0]): no attempt is ever cut, every failed
    item failed by the exception of its last attempt after using up its
    attempts, and no error line names a TimeoutError. *)
Theorem timeout_off_when_not_positive env (st0 : state) acts st :
  _async_process_all env = Ok st0 →
  e_timeout env ≤ 0 →
  run env acts st0 = Some st →
  (∀ i, TimesOut i ∉ acts) ∧
  (∀ i st', step env (TimesOut i) st ≠ Some st') ∧
  (∀ i t e, st_tasks st !! i = Some t → t_phase t = Failed e →
     ∃ e', e = ProcessError e' ∧
           last (item_events acts i) = Some (Raises i e') ∧
           Z.of_nat (invocations i (st_calls st)) = max_attempts (e_max_retries env)) ∧
  (∀ j m e, (j, m, e) ∈ st_errors st → e ≠ TimeoutError).
Proof.
  intros Hstart Htmo Hrun.
  assert (∀ i st', step env (TimesOut i) st ≠ Some st') as Hoff.
  { intros i st' Hs. apply timeout_needs_positive in Hs. lia. }
  destruct (async_process_all_start _ _ Hstart) as [[Hnil ->]|(Hne & _ & ->)].
  { apply run_returned_empty in Hrun as [-> ->].
    split; [intros i; apply not_elem_of_nil|]. split; [done|].
    split; [done|]. by intros j m e ?%elem_of_nil. }
  pose proof (no_timeout_event _ _ _ Htmo Hrun) as Hnone.
  destruct (run_invariants _ _ _ Hrun) as (_ & _ & Hcalls & Hlogs & Htrace).
  assert (∀ i t e, st_tasks st !! i = Some t → t_phase t = Failed e →
            ∃ e', e = ProcessError e' ∧
                  last (item_events acts i) = Some (Raises i e')) as Hfailed.
  { intros i t e Ht Hph. pose proof (Htrace _ _ Ht) as Hagree.
    rewrite Hph in Hagree. destruct e as [e'|]; simpl in Hagree.
    - exists e'. split; [done|]. destruct Hagree as (evs' & -> & _).
      apply last_snoc.
    - destruct Hagree as (evs' & Heq & _). exfalso. apply (Hnone i).
      assert (TimesOut i ∈ item_events acts i) as Hin
        by (rewrite Heq; apply elem_of_app; right; apply list_elem_of_here).
      unfold item_events in Hin. apply list_elem_of_In, List.filter_In in Hin as [Hin _].
      by apply list_elem_of_In. }
  split; [done|]. split; [done|]. split.
  - intros i t e Ht Hph. destruct (Hfailed _ _ _ Ht Hph) as (e' & -> & Hlast).
    exists e'. split; [done|]. split; [done|].
    pose proof (calls_attempts _ _ Hcalls _ _ Ht) as Hatt. by rewrite Hph in Hatt.
  - intros j m e Hin ->.
    destruct (logs_errors _ _ Hlogs _ _ _ Hin) as (_ & _ & t & Ht & Hph).
    by destruct (Hfailed _ _ _ Ht Hph) as (e' & ? & _).
Qed.

(** *** The semaphore *)

(** X9: the semaphore refuses a waiting item only while all permits are
    taken: for an item at [async with sem] the permit is unavailable
    exactly when [workers] items are RUNNING, or the call has already
    raised (the waiting tasks are then cancelled); with at least as many
    workers as items a permit is always available to it while the call
    goes on. *)
Theorem gate_holds_items_only_when_full env (st0 : state) acts st i t :
  _async_process_all env = Ok st0 →
  run env acts st0 = Some st →
  st_tasks st !! i = Some t → t_phase t = AtGate →
  (step env (Acquire i) st = None ↔
     Z.of_nat (count_where is_running (st_tasks st)) = e_workers env ∨
     st_raised st = true) ∧
  (Z.of_nat (total_items env) ≤ e_workers env → st_raised st = false →
     ∃ st', step env (Acquire i) st = Some st').
Proof.
  intros Hstart Hrun Hi Hph.
  destruct (async_process_all_start _ _ Hstart) as [[Hnil ->]|(Hne & Hw & ->)].
  { apply run_returned_empty in Hrun as [-> ->]. done. }
  destruct (run_invariants _ _ _ Hrun) as (Hshape & Hcnt & _).
  pose proof (sem_nonneg _ _ _ Hw Hrun) as Hsem.
  pose proof (cnt_sem _ _ Hcnt) as Hsum.
  assert (st_returned st = false) as Hret.
  { destruct (st_returned st) eqn:Hret; [|done].
    destruct (returned_crash _ _ _ Hrun Hne Hret) as [[Hc _]|[_ Hlr]].
    - pose proof (returned_terminal _ _ _ _ Hcnt Hret Hc Hi) as Hterm.
      by rewrite Hph in Hterm.
    - pose proof (crash_mode _ _ (run_crash_inv _ _ _ Hrun) _ _ Hi) as Hmode.
      rewrite Hlr in Hmode. destruct Hmode; congruence. }
  assert (step env (Acquire i) st
          = if st_raised st then None
            else if 0 <? st_sem st then Some (acquire i t st) else None) as ->.
  { unfold step, ended. rewrite Hret. simpl.
    destruct (st_raised st); [done|]. rewrite Hi. simpl. by rewrite Hph. }
  split.
  - destruct (st_raised st); [by split; [right|]|].
    destruct (Z.ltb_spec 0 (st_sem st)); split; try done; [intros [?|?]|left]; try done; lia.
  - intros Hmany ->.
    assert (count_where is_running (st_tasks st) < length (st_tasks st))%nat as Hlt.
    { pose proof (count_where_le is_running (st_tasks st)) as Hle.
      destruct (decide (count_where is_running (st_tasks st) = length (st_tasks st)))
        as [Heq|]; [|lia].
      pose proof (count_where_all _ _ _ _ Heq Hi) as Hr. by rewrite Hph in Hr. }
    rewrite (shape_tasks _ _ Hshape) in Hlt.
    destruct (Z.ltb_spec 0 (st_sem st)); [eauto | lia].
Qed.

(** With no permit at all the items can only pass the limiter. *)
Lemma starved_run env acts st :
  e_workers env = 0 → e_items env ≠ [] → limiter_raises env = false →
  run env acts (scheduled env) = Some st →
  st_sem st = 0 ∧ ended st = false ∧ st_crash st = None ∧
  (∀ i t, st_tasks st !! i = Some t → is_waiting (t_phase t) = true) ∧
  Forall (fun a => ∃ i, a = PassLimiter i) acts ∧
  (length acts + count_where at_limiter (st_tasks st)
   = if limited env then total_items env else 0)%nat.
Proof.
  intros Hw Hne Hlr. revert acts st. apply run_ind.
  - split; [done|]. split; [done|]. split; [done|]. split; [|split; [constructor|]].
    + intros i t (_ & _ & ->)%scheduled_lookup. by destruct (limited env).
    + change (length (@nil action)) with 0%nat. rewrite Nat.add_0_l.
      destruct (limited env) eqn:Hlim.
      * rewrite <- (shape_tasks env (scheduled env) (shape_scheduled env)).
        apply (proj1 (count_where_forallb _ _)), forallb_forall.
        intros t Ht%list_elem_of_In.
        apply list_elem_of_lookup in Ht as [i Ht].
        apply scheduled_lookup in Ht as (_ & _ & ->). by rewrite Hlim.
      * apply count_where_none. intros i t (_ & _ & ->)%scheduled_lookup.
        by rewrite Hlim.
  - intros acts st a st' Hrun (Hsem & Hret & Hcr & Hwait & Hacts & Hlen) Hs.
    destruct (run_invariants _ _ _ Hrun) as (Hshape & _).
    pose proof (run_crash_inv _ _ _ Hrun) as Hcrash.
    apply step_view in Hs as
      [_ [(-> & Hall & _ & ->) | [(c & -> & Hc & ->) |
          (i & t & ph' & Hi & Htr & Hgate & ->)]]].
    + exfalso. destruct (e_items env) as [|x items] eqn:Hitems; [done|].
      destruct (lookup_lt_is_Some_2 (st_tasks st) 0%nat) as [t Ht].
      { rewrite (shape_tasks _ _ Hshape). unfold total_items. rewrite Hitems.
        simpl. lia. }
      assert (is_terminal (t_phase t) = true) as Hterm.
      { apply (count_where_all is_terminal (st_tasks st) 0%nat); [|done].
        by apply count_where_forallb. }
      specialize (Hwait _ _ Ht). by destruct (t_phase t).
    + congruence.
    + specialize (Hwait _ _ Hi) as Hw'.
      assert (a = PassLimiter i ∧ ph' = AtGate ∧ t_phase t = AtLimiter) as (-> & -> & Hph).
      { pose proof (crash_limited _ _ Hcrash _ _ Hi) as Hlim.
        revert Hgate Hw' Hlim. destruct Htr; simpl; try done.
        - intros _ _ Hlim. specialize (Hlim eq_refl).
          assert (limiter_raises env = true); [|congruence].
          by apply limiter_raises_spec.
        - intros Hgate _. specialize (Hgate eq_refl). lia.
        - intros _. by destruct ph. }
      pose proof (count_where_insert at_limiter _ _ _ AtGate Hi) as Hcount.
      rewrite Hph in Hcount. simpl in Hcount.
      split; [simpl; rewrite Hph; simpl; lia|]. split; [done|]. split; [done|].
      split; [|split].
      * intros j t' Hj. rewrite effect_lookup in Hj by done.
        case_decide; [by injection Hj as <-|by eapply Hwait].
      * apply Forall_app. split; [done|]. constructor; [by eexists|constructor].
      * rewrite length_app. simpl. lia.
Qed.

(** With a limiter that refuses the items the call goes on to its return
    whatever the number of permits. *)
Lemma refusing_limiter_live env acts st :
  run env acts (scheduled env) = Some st → e_items env ≠ [] →
  limiter_raises env = true → st_returned st = false →
  ∃ a st', step env a st = Some st'.
Proof.
  intros Hrun Hne Hlr Hret.
  destruct (refusing_limiter_idle _ _ _ Hrun Hne Hlr) as (_ & _ & _ & _ & _ & _ & _ & Hrai).
  destruct (run_invariants _ _ _ Hrun) as (Hshape & _).
  pose proof (run_crash_inv _ _ _ Hrun) as Hcrash.
  assert (ended st = false) as Hend by (unfold ended; by rewrite Hret, Hrai).
  destruct (st_crash st) as [c|] eqn:Hc.
  { exists GatherRaises. unfold step. rewrite Hend, Hc. simpl. eauto. }
  destruct (lookup_lt_is_Some_2 (st_tasks st) 0%nat) as [t Ht].
  { rewrite (shape_tasks _ _ Hshape). unfold total_items.
    destruct (e_items env); [done | simpl; lia]. }
  pose proof (crash_mode _ _ Hcrash _ _ Ht) as Hmode. rewrite Hlr in Hmode.
  pose proof (crash_none _ _ Hcrash Hc _ _ Ht) as Hleft.
  apply limiter_raises_spec in Hlr as [_ Hg].
  destruct Hmode as [Hph|Hph]; rewrite Hph in Hleft; [|done].
  exists (LimiterRaises 0). unfold step. rewrite Hend, Ht. simpl.
  rewrite Hph, Hg. eauto.
Qed.

(** X10: [process_batches] accepts [workers=0] ([asyncio.Semaphore(0)] is
    legal). On a non-empty input the process function is then never
    invoked, every slot stays None and the call does not raise. When the
    limiter refuses the items (a rate strictly between 0 and 1) the call
    still comes to its return, with None in every slot. Otherwise it never
    returns: the only events are the passages of the limiter, at most one
    per item, and once the items have passed the limiter (at once when
    there is none) no event is possible any more. *)
Theorem process_batches_with_zero_workers_starves_items
    (batches : list (list Z * list Item)) max_retries timeout kwargs env (st0 : state)
    acts st :
  process_batches batches 0 max_retries timeout kwargs = Ok (env, st0) →
  concat batches.*2 ≠ [] →
  run env acts st0 = Some st →
  st_calls st = [] ∧
  st_results st = replicate (total_items env) None ∧
  st_raised st = false ∧
  if limiter_raises env
  then (length acts ≤ run_bound env)%nat ∧
       (st_returned st = false → ∃ a st', step env a st = Some st')
  else st_returned st = false ∧
       Forall (fun a => ∃ i, a = PassLimiter i) acts ∧
       (length acts ≤ total_items env)%nat ∧
       (limited env = false ∨ length acts = total_items env →
          ∀ a, step env a st = None).
Proof.
  intros (rate & _ & Henv & Hstart)%process_batches_start Hne Hrun.
  assert (e_workers env = 0) as Hw by (by subst env).
  assert (e_items env ≠ []) as Hitems by (by subst env).
  clear Henv.
  destruct (async_process_all_start _ _ Hstart) as [[Hnil _]|(_ & _ & ->)]; [done|].
  destruct (limiter_raises env) eqn:Hlr.
  { destruct (refusing_limiter_idle _ _ _ Hrun Hitems Hlr)
      as (Hcalls & _ & _ & _ & _ & Hres & _ & Hrai).
    do 3 (split; [done|]).
    split; [pose proof (run_length _ _ _ Hrun); lia|].
    by apply (refusing_limiter_live env acts). }
  destruct (starved_run _ _ _ Hw Hitems Hlr Hrun)
    as (Hsem & Hend & Hcr & Hwait & Hacts & Hlen).
  apply orb_false_elim in Hend as [Hret Hrai].
  destruct (run_invariants _ _ _ Hrun) as (Hshape & _ & Hcalls & _).
  split; [|split; [|split; [done|split; [done|split; [done|split]]]]].
  - destruct (st_calls st) as [|c calls] eqn:Hc; [done|]. exfalso.
    assert (c ∈ st_calls st) as Hin by (rewrite Hc; apply list_elem_of_here).
    destruct (calls_args _ _ Hcalls _ Hin) as [_ Hitem].
    destruct (lookup_lt_is_Some_2 (st_tasks st) (c_idx c)) as [t Ht].
    { rewrite (shape_tasks _ _ Hshape). by apply lookup_lt_Some in Hitem. }
    pose proof (calls_attempts _ _ Hcalls _ _ Ht) as Hatt.
    specialize (Hwait _ _ Ht).
    assert (invocations (c_idx c) (st_calls st) = 0%nat) as Hzero
      by (destruct (t_phase t); done).
    unfold invocations in Hzero. rewrite Hc in Hzero. simpl in Hzero.
    rewrite Nat.eqb_refl in Hzero. done.
  - rewrite (shape_results _ _ Hshape). apply list_eq. intros i.
    rewrite list_lookup_fmap.
    destruct (st_tasks st !! i) as [t|] eqn:Ht; simpl.
    + rewrite lookup_replicate_2.
      * specialize (Hwait _ _ Ht). by destruct (t_phase t).
      * apply lookup_lt_Some in Ht. by rewrite (shape_tasks _ _ Hshape) in Ht.
    + symmetry. apply lookup_ge_None. rewrite length_replicate.
      apply lookup_ge_None in Ht. by rewrite (shape_tasks _ _ Hshape) in Ht.
  - destruct (limited env); lia.
  - intros Hstuck a.
    assert (count_where at_limiter (st_tasks st) = 0%nat) as Hnone.
    { destruct Hstuck as [Hlim|Hfull]; [rewrite Hlim in Hlen; lia|].
      destruct (limited env); lia. }
    destruct (step env a st) as [st'|] eqn:Hs; [exfalso|done].
    assert (run env (acts ++ [a]) (scheduled env) = Some st') as Hrun'
      by (apply run_snoc; eauto).
    destruct (starved_run _ _ _ Hw Hitems Hlr Hrun') as (_ & _ & _ & _ & Hacts' & _).
    apply Forall_app in Hacts' as [_ Hlast].
    apply Forall_singleton in Hlast as [i ->].
    apply step_view in Hs as
      [_ [(? & _) | [(c & ? & _) | (j & t & ph' & Hj & Htr & _ & _)]]]; [done..|].
    pose proof (count_where_zero _ _ _ _ Hnone Hj) as Hph.
    inversion Htr as [Hg Ha| | | | | | |]; subst. by rewrite <- Ha in Hph.
Qed.

Abbreviation call := (@call Item Obj).

(** *** The number of invocations *)

Lemma indicator_sum_none (j n : nat) :
  (n ≤ j)%nat →
  sum_list_with (fun i => if (j =? i)%nat then 1 else 0)%nat (seq 0 n) = 0%nat.
Proof.
  induction n as [|n IH]; [done|]. intros Hj.
  rewrite seq_S, sum_list_with_app, IH by lia. simpl.
  destruct (Nat.eqb_spec j n); lia.
Qed.

Lemma indicator_sum (j n : nat) :
  (j < n)%nat →
  sum_list_with (fun i => if (j =? i)%nat then 1 else 0)%nat (seq 0 n) = 1%nat.
Proof.
  induction n as [|n IH]; [lia|]. intros Hj.
  rewrite seq_S, sum_list_with_app. simpl.
  destruct (Nat.eqb_spec j n) as [->|Hne].
  - rewrite indicator_sum_none by lia. lia.
  - rewrite IH by lia. lia.
Qed.

(** One more invocation is one more for its own position. *)
Lemma invocations_cons (c : call) (calls : list call) (l : list nat) :
  sum_list_with (fun i => invocations i (c :: calls)) l
  = (sum_list_with (fun i => if (c_idx c =? i)%nat then 1 else 0) l
     + sum_list_with (fun i => invocations i calls) l)%nat.
Proof.
  induction l as [|i l IH]; [done|]. simpl sum_list_with. rewrite IH.
  assert (invocations i (c :: calls)
          = ((if (c_idx c =? i)%nat then 1 else 0) + invocations i calls)%nat) as ->.
  { unfold invocations. simpl. by destruct (c_idx c =? i)%nat. }
  lia.
Qed.

(** Every invocation is counted for exactly one position. *)
Lemma invocations_total (calls : list call) (n : nat) :
  (∀ c, c ∈ calls → (c_idx c < n)%nat) →
  length calls = sum_list_with (fun i => invocations i calls) (seq 0 n).
Proof.
  induction calls as [|c calls IH]; intros Hidx.
  - unfold invocations. simpl. induction (seq 0 n); [done|]. simpl. lia.
  - rewrite invocations_cons, indicator_sum by (apply Hidx; by left).
    rewrite <- IH by (intros c' Hc'; apply Hidx; by right). done.
Qed.

(** Attempt numbers stay within the attempts the wrapper allows. *)
Lemma attempt_numbers_run env acts st :
  run env acts (scheduled env) = Some st →
  ∀ c, c ∈ st_calls st → 1 ≤ c_attempt c ≤ max_attempts (e_max_retries env).
Proof.
  revert acts st.
  apply (run_ind env (scheduled env)
           (fun _ st => ∀ c, c ∈ st_calls st →
                          1 ≤ c_attempt c ≤ max_attempts (e_max_retries env))).
  - by intros c ?%elem_of_nil.
  - intros acts st a st' Hrun IH Hs c Hc.
    destruct (run_invariants _ _ _ Hrun) as (_ & _ & Hcalls & _).
    apply step_view in Hs as
      [_ [(-> & _ & _ & ->) | [(c0 & -> & _ & ->) | (i & t & ph' & Hi & Htr & _ & ->)]]];
      [by apply IH | by destruct c0; apply IH |].
    simpl in Hc. pose proof (calls_attempts _ _ Hcalls _ _ Hi) as Hatt.
    destruct Htr; try by apply IH.
    apply elem_of_app in Hc as [Hc|Hc%list_elem_of_singleton]; [by apply IH|].
    subst c. simpl. simpl in Hatt. lia.
Qed.

(** X19: in every state of a run the process function has been invoked
    on each item at most [max(1, max_retries + 1)] times and at most
    [n * max(1, max_retries + 1)] times in all for [n] items, every
    invocation bearing an attempt number between 1 and that bound; with
    [max_retries] zero or negative no item is invoked twice. *)
Theorem invocations_bounded_in_total env (st0 : state) acts st :
  _async_process_all env = Ok st0 →
  run env acts st0 = Some st →
  (∀ i, Z.of_nat (invocations i (st_calls st)) ≤ max_attempts (e_max_retries env)) ∧
  Z.of_nat (length (st_calls st))
    ≤ Z.of_nat (total_items env) * max_attempts (e_max_retries env) ∧
  (∀ c, c ∈ st_calls st → 1 ≤ c_attempt c ≤ max_attempts (e_max_retries env)) ∧
  (e_max_retries env ≤ 0 → ∀ i, (invocations i (st_calls st) ≤ 1)%nat).
Proof.
  intros Hstart Hrun.
  destruct (async_process_all_start _ _ Hstart) as [[Hnil ->]|(Hne & _ & ->)].
  { apply run_returned_empty in Hrun as [-> ->]. unfold invocations, max_attempts.
    simpl. split; [lia|]. split; [lia|]. split; [by intros c ?%elem_of_nil|]. lia. }
  destruct (run_invariants _ _ _ Hrun) as (Hshape & _ & Hcalls & _).
  assert (∀ i, Z.of_nat (invocations i (st_calls st))
               ≤ max_attempts (e_max_retries env)) as Hper.
  { intros i. destruct (st_tasks st !! i) as [t|] eqn:Ht.
    - pose proof (calls_attempts _ _ Hcalls _ _ Ht) as Hatt.
      destruct (t_phase t) as [| | | | |[e|]|]; simpl in Hatt;
        unfold max_attempts in *; lia.
    - pose proof (retry_inv_run _ _ _ Hrun i) as Hinv. rewrite Ht in Hinv.
      destruct Hinv as [-> _]. unfold max_attempts. lia. }
  split; [done|]. split; [|split; [by eapply attempt_numbers_run|]].
  - rewrite (invocations_total (st_calls st) (total_items env)).
    2: { intros c Hc. destruct (calls_args _ _ Hcalls _ Hc) as [_ Hitem].
         by apply lookup_lt_Some in Hitem. }
    assert (∀ l : list nat,
              Z.of_nat (sum_list_with (fun i => invocations i (st_calls st)) l)
              ≤ Z.of_nat (length l) * max_attempts (e_max_retries env)) as Hsum.
    { induction l as [|i l IHl]; [simpl; lia|].
      simpl sum_list_with. simpl length. specialize (Hper i). lia. }
    specialize (Hsum (seq 0 (total_items env))). by rewrite length_seq in Hsum.
  - intros Hmr i. specialize (Hper i). unfold max_attempts in Hper. lia.
Qed.

(** *** The progress observer *)





End MoreRuns.

(** ** The LLM client and the agents *)

Section OracleFacts.
Context {Exn Obj : Type} `{PyObject Obj}.
Variable create : request → outcome string Exn.
Variable str : Exn → string.
Variable model : string.

Abbreviation qitem := (string * option string)%type.
Abbreviation engine := (@engine qitem Obj).
Abbreviation state := (@state qitem string Empty_set Obj).

(** Item [i] of [query_items]. *)
Lemma query_items_lookup prompts keys i :
  query_items prompts keys !! i =
    (fun prompt => (prompt, default [] keys !! i)) <$> prompts !! i.
Proof.
  unfold query_items. rewrite list_lookup_imap.
  destruct (prompts !! i) as [prompt|]; [|done]. simpl. do 2 f_equal.
  destruct (Nat.ltb_spec i (length (default [] keys))); [done|].
  symmetry. by apply lookup_ge_None.
Qed.

Lemma query_items_length prompts keys :
  length (query_items prompts keys) = length prompts.
Proof. unfold query_items. apply length_imap. Qed.

(** X12: [query_all] pairs prompt [i] with key [i] of [query_key_list],
    and with None where the list is missing, empty or too short; the
    prompts keep their order and number, and surplus keys are dropped. *)
Theorem query_items_pads_missing_keys prompts keys :
  length (query_items prompts keys) = length prompts ∧
  (query_items prompts keys).*1 = prompts ∧
  (∀ i, (query_items prompts keys).*2 !! i
        = (fun _ => default [] keys !! i) <$> prompts !! i) ∧
  (∀ i prompt key, query_items prompts keys !! i = Some (prompt, Some key) →
     ∃ ks, keys = Some ks ∧ ks !! i = Some key) ∧
  query_items prompts None = (fun prompt => (prompt, None)) <$> prompts.
Proof.
  split; [apply query_items_length|]. split; [|split; [|split]].
  - apply list_eq. intros i. rewrite list_lookup_fmap, query_items_lookup.
    by destruct (prompts !! i).
  - intros i. rewrite list_lookup_fmap, query_items_lookup.
    by destruct (prompts !! i).
  - intros i prompt key. rewrite query_items_lookup.
    destruct (prompts !! i); [|done]. simpl. intros [= -> Hkey].
    destruct keys as [ks|]; [by eauto|done].
  - apply list_eq. intros i. rewrite list_lookup_fmap, query_items_lookup. done.
Qed.

(** X13: [query] sends the request with [logprobs] and, only if that
    raises, the same request without it; it returns the content of the
    one that succeeded (the empty string for a None content), and
    [QUERY_FAILED: ] followed by the text of the second exception when
    both raise (the first exception is not reported). Every request
    carries the model, prompts, temperature and top_p of the call. *)
Theorem query_falls_back_and_reports_last_error
    prompt_sys prompt_user temp top_p logprobs query_key :
  let first :=
    {| r_model := model; r_system := prompt_sys; r_user := prompt_user;
       r_temperature := temp; r_top_p := top_p; r_logprobs := Some logprobs |} in
  let second :=
    {| r_model := model; r_system := prompt_sys; r_user := prompt_user;
       r_temperature := temp; r_top_p := top_p; r_logprobs := None |} in
  let result := query create str model prompt_sys prompt_user temp top_p logprobs query_key in
  (∀ content, create first = Ret content →
     result = ([first], default EmptyString content)) ∧
  (∀ e content, create first = Exc e → create second = Ret content →
     result = ([first; second], default EmptyString content)) ∧
  (∀ e e', create first = Exc e → create second = Exc e' →
     result = ([first; second], "QUERY_FAILED: " +:+ str e')) ∧
  (∀ r, r ∈ result.1 →
     r_model r = model ∧ r_system r = prompt_sys ∧ r_user r = prompt_user ∧
     r_temperature r = temp ∧ r_top_p r = top_p) ∧
  (1 ≤ length result.1 ≤ 2)%nat.
Proof.
  intros first second result. subst result. unfold query, _query_openai.
  fold first. fold second.
  destruct (create first) as [c1|e1]; [|destruct (create second) as [c2|e2]]; simpl;
    (split; [by intros ? [= <-] || done|]);
    (split; [by intros ?? [= <-] [= <-] || done|]);
    (split; [by intros ?? [= <-] [= <-] || done|]);
    (split; [|lia]);
    intros r Hr; repeat (apply elem_of_cons in Hr as [-> | Hr]; [done|]);
    by apply elem_of_nil in Hr.
Qed.

(** The requests of [process_func] are those of one [query], and carry
    the values bound when [query_all] was called. *)
Lemma process_func_requests prompt_sys temp top_p (item : qitem) r :
  r ∈ (process_func create str model prompt_sys temp top_p item).1 →
  r_model r = model ∧ r_system r = prompt_sys ∧ r_user r = item.1 ∧
  r_temperature r = temp ∧ r_top_p r = top_p.
Proof.
  destruct item as [prompt key]. unfold process_func, query, _query_openai. simpl.
  destruct (create _) as [c1|e1]; [|destruct (create _) as [c2|e2]]; simpl;
    intros Hr; repeat (apply elem_of_cons in Hr as [-> | Hr]; [done|]);
    by apply elem_of_nil in Hr.
Qed.

Lemma rate_limit_of_empty : rate_limit_of (∅ : gmap string (kwval Obj)) = Ok 0%Qc.
Proof.
  unfold rate_limit_of. by rewrite lookup_empty.
Qed.

(** The [parallel_process] call of [query_all]. *)
Lemma query_all_start cpu_count prompt_sys prompts workers temp top_p keys
    batch_size max_retries timeout kwargs :
  1 ≤ adjusted_batch_size (Z.of_nat (length prompts)) batch_size →
  ∃ env (st0 : state),
    query_all create str model cpu_count prompt_sys prompts workers temp top_p keys
      batch_size max_retries timeout kwargs
      = Ok (process_func create str model prompt_sys temp top_p, (env, st0)) ∧
    _async_process_all env = Ok st0 ∧
    e_items env = query_items prompts keys ∧
    e_workers env =
      Z.max 1 (py_int (num_or workers (PInt (Z.min 32 (cpu_count_or cpu_count 4 * 4))))) ∧
    e_max_retries env = max_retries ∧
    e_timeout env = timeout ∧
    e_rate_limit_per_sec env = 0%Qc ∧
    e_kwargs env = ∅.
Proof.
  intros Hsize. unfold query_all.
  rewrite <- (query_items_length prompts keys) in Hsize.
  destruct (parallel_process_total (Val := string) (Exn := Empty_set) cpu_count
              (query_items prompts keys)
              (Some (py_int (num_or workers (PInt (Z.min 32 (cpu_count_or cpu_count 4 * 4))))))
              batch_size max_retries timeout ∅ 0%Qc Hsize rate_limit_of_empty)
    as (env & st0 & Hpp).
  exists env, st0. rewrite Hpp. simpl. split; [done|].
  pose proof (parallel_process_items _ _ _ _ _ _ _ _ _ Hsize Hpp) as Hitems.
  destruct (parallel_process_env _ _ _ _ _ _ _ _ _ Hpp)
    as (Hw & Hmr & Htmo & Hkw & Hrate & Hst).
  rewrite rate_limit_of_empty in Hrate. injection Hrate as Hrate.
  split.
  { unfold _async_process_all, total_items.
    destruct Hst as [[Hnil ->]|[Hne ->]].
    - by rewrite Hnil.
    - destruct (e_items env) eqn:He; [done|]. simpl.
      destruct (Z.ltb_spec (e_workers env) 0); [|done].
      rewrite Hw in *. simpl in *. lia. }
  split; [done|]. split; [done|]. split; [done|]. split; [done|]. split; [done|].
  rewrite Hkw. apply delete_empty.
Qed.

(** X14: [query_all] does not pass its keyword arguments on: whatever they
    are ([rate_limit_per_sec] included), the call is the one made with
    none, no rate limiter is created, no item ever passes a limiter and
    the process function receives no keyword argument. *)
Theorem query_all_drops_keyword_arguments cpu_count prompt_sys prompts workers temp
    top_p keys batch_size max_retries timeout kwargs :
  1 ≤ adjusted_batch_size (Z.of_nat (length prompts)) batch_size →
  ∃ env (st0 : state),
    query_all create str model cpu_count prompt_sys prompts workers temp top_p keys
      batch_size max_retries timeout kwargs
      = Ok (process_func create str model prompt_sys temp top_p, (env, st0)) ∧
    query_all create str model cpu_count prompt_sys prompts workers temp top_p keys
      batch_size max_retries timeout ∅
      = Ok (process_func create str model prompt_sys temp top_p, (env, st0)) ∧
    e_items env = query_items prompts keys ∧
    e_kwargs env = ∅ ∧
    limited env = false ∧
    ∀ acts st, run env acts st0 = Some st →
      (∀ c, c ∈ st_calls st → c_kwargs c = ∅) ∧
      (∀ i, limiter_passes acts i = 0%nat) ∧
      (∀ i, PassLimiter i ∉ acts).
Proof.
  intros Hsize.
  destruct (query_all_start cpu_count prompt_sys prompts workers temp top_p keys
              batch_size max_retries timeout kwargs Hsize)
    as (env & st0 & Hq & Hstart & Hitems & _ & _ & _ & Hrate & Hkw).
  exists env, st0. split; [done|]. split; [done|]. split; [done|]. split; [done|].
  assert (limited env = false) as Hlim.
  { unfold limited. rewrite Hrate. by apply bool_decide_false. }
  split; [done|]. intros acts st Hrun.
  assert (∀ i, limiter_passes acts i = 0%nat) as Hpass.
  { destruct (async_process_all_start _ _ Hstart) as [[_ ->]|(_ & _ & ->)].
    - apply run_returned_empty in Hrun as [-> _]. done.
    - intros i. pose proof (limiter_inv_run _ _ _ Hrun i) as Hinv.
      rewrite Hlim in Hinv. destruct (st_tasks st !! i) as [t|]; [|done].
      destruct (t_phase t); intuition congruence. }
  split; [|split; [done|]].
  - intros c Hc. rewrite <- Hkw.
    destruct (async_process_all_start _ _ Hstart) as [[_ ->]|(_ & _ & ->)].
    + apply run_returned_empty in Hrun as [_ ->]. by apply elem_of_nil in Hc.
    + destruct (run_invariants _ _ _ Hrun) as (_ & _ & Hcalls & _).
      by destruct (calls_args _ _ Hcalls _ Hc).
  - intros i Hin. specialize (Hpass i). unfold limiter_passes in Hpass.
    apply list_elem_of_In in Hin.
    assert (In (PassLimiter i) (List.filter (passed_by i) acts)) as Hin'
      by (apply List.filter_In; split; [done|apply Nat.eqb_refl]).
    destruct (List.filter _ _); [done|simpl in Hpass; lia].
Qed.

(** A float strictly between 0 and 1 is truthy and truncates to 0. *)
Lemma py_int_fraction (q : Qc) :
  (0 < q)%Qc → (q < 1)%Qc → py_int (PFloat q) = 0 ∧ num_truthy (PFloat q) = true.
Proof.
  intros Hpos Hlt. unfold Qclt, Qlt in Hpos, Hlt. simpl in Hpos, Hlt. split.
  - simpl. apply Z.quot_small. lia.
  - simpl. rewrite bool_decide_false; [done|]. intros ->. simpl in Hpos. lia.
Qed.

(** [min(32, (os.cpu_count() or 4) * 4)] lies between 4 and 32. *)
Lemma fallback_workers_range cpu_count :
  4 ≤ Z.min 32 (cpu_count_or cpu_count 4 * 4) ≤ 32.
Proof. destruct cpu_count as [p|]; simpl; lia. Qed.

(** What a [query_all] call that started consists of. *)
Lemma query_all_inv cpu_count prompt_sys prompts workers temp top_p keys
    batch_size max_retries timeout kwargs func env (st0 : state) :
  query_all create str model cpu_count prompt_sys prompts workers temp top_p keys
    batch_size max_retries timeout kwargs = Ok (func, (env, st0)) →
  func = process_func create str model prompt_sys temp top_p ∧
  _async_process_all env = Ok st0 ∧
  e_workers env =
    Z.max 1 (py_int (num_or workers (PInt (Z.min 32 (cpu_count_or cpu_count 4 * 4))))) ∧
  e_max_retries env = max_retries ∧
  e_timeout env = timeout ∧
  limited env = false.
Proof.
  unfold query_all.
  destruct (parallel_process _ _ _ _ _ _ _) as [[env' st0']|] eqn:Hpp; [|done].
  simpl. intros [= <- <- <-]. split; [done|].
  destruct (parallel_process_env _ _ _ _ _ _ _ _ _ Hpp)
    as (Hw & Hmr & Htmo & _ & Hrate & Hst).
  rewrite rate_limit_of_empty in Hrate. injection Hrate as Hrate.
  split; [|do 3 (split; [done|]); unfold limited; rewrite <- Hrate;
           by apply bool_decide_false].
  unfold _async_process_all, total_items.
  destruct Hst as [[Hnil ->]|[Hne ->]].
  - by rewrite Hnil.
  - destruct (e_items env') eqn:He; [done|]. simpl.
    destruct (Z.ltb_spec (e_workers env') 0); [|done].
    rewrite Hw in *. simpl in *. lia.
Qed.

(** X15: the worker count of a [query_all] call is at least 1; it is
    [min(32, 4 * cpus)] (between 4 and 32) when [workers] is None or zero,
    [max(1, int(workers))] otherwise, hence 1 for a negative count and for
    a fraction between 0 and 1. *)
Theorem query_all_worker_count cpu_count prompt_sys prompts workers temp top_p keys
    batch_size max_retries timeout kwargs func env (st0 : state) :
  query_all create str model cpu_count prompt_sys prompts workers temp top_p keys
    batch_size max_retries timeout kwargs = Ok (func, (env, st0)) →
  let fallback := Z.min 32 (cpu_count_or cpu_count 4 * 4) in
  1 ≤ e_workers env ∧
  4 ≤ fallback ≤ 32 ∧
  (workers = None → e_workers env = fallback) ∧
  (∀ w, workers = Some w → num_truthy w = false → e_workers env = fallback) ∧
  (∀ w, workers = Some w → num_truthy w = true → e_workers env = Z.max 1 (py_int w)) ∧
  (∀ n, workers = Some (PInt n) → n < 0 → e_workers env = 1) ∧
  (∀ q, workers = Some (PFloat q) → (0 < q)%Qc → (q < 1)%Qc → e_workers env = 1).
Proof.
  intros (_ & _ & Hw & _)%query_all_inv fallback.
  pose proof (fallback_workers_range cpu_count) as Hrange. fold fallback in Hrange, Hw.
  rewrite Hw. split; [lia|]. split; [done|].
  split; [intros ->; simpl; lia|].
  split; [intros w -> Hf; simpl; rewrite Hf; simpl; lia|].
  split; [by intros w -> Ht; simpl; rewrite Ht|].
  split.
  - intros n -> Hn. simpl. destruct (Z.eqb_spec n 0); simpl; lia.
  - intros q -> Hpos Hlt. destruct (py_int_fraction q Hpos Hlt) as [Hint Htruthy].
    unfold num_or. rewrite Htruthy, Hint. done.
Qed.

(** A run of [query_all]: no limiter, and a process function that raises
    nothing. *)
Lemma query_run_no_crash (env : engine) acts (st : state) :
  limited env = false → run env acts (scheduled env) = Some st →
  st_crash st = None ∧ st_raised st = false.
Proof.
  intros Hlim Hrun. eapply printable_run; [by intros []| |done].
  unfold limiter_raises. by rewrite Hlim.
Qed.

Lemma raises_none (acts : list (action string Empty_set)) i :
  Forall returns_text acts → raises acts i = 0%nat.
Proof.
  unfold raises. induction 1 as [|a acts Ha _ IH]; [done|]. simpl.
  destruct a; simpl in *; done.
Qed.

Lemma item_event_in_trace (acts : list (action string Empty_set)) i a :
  a ∈ item_events acts i → a ∈ acts.
Proof.
  unfold item_events. intros [Hin _]%list_elem_of_In%List.filter_In.
  by apply list_elem_of_In.
Qed.

Lemma ends_with_in_trace (acts : list (action string Empty_set)) i a :
  ends_with (item_events acts i) a → a ∈ acts.
Proof.
  intros (evs' & Heq & _). apply (item_event_in_trace acts i). rewrite Heq.
  apply elem_of_app. right. apply list_elem_of_here.
Qed.

(** X16: in a run of [query_all] whose process function returns a
    string on every call (as [process_func] does, a failed query being
    caught and returned as text), no prompt is submitted twice, whatever
    [max_retries]; the only error lines are timeouts; and in the returned
    list a slot is None exactly when its prompt was cut by the timeout,
    every other slot holding the text returned for its prompt. *)
Theorem query_all_never_retries cpu_count prompt_sys prompts workers temp top_p keys
    batch_size max_retries timeout kwargs func env (st0 : state) acts st :
  query_all create str model cpu_count prompt_sys prompts workers temp top_p keys
    batch_size max_retries timeout kwargs = Ok (func, (env, st0)) →
  run env acts st0 = Some st →
  Forall returns_text acts →
  (∀ i, invocations i (st_calls st) ≤ 1)%nat ∧
  (∀ j m e, (j, m, e) ∈ st_errors st → e = TimeoutError ∧ TimesOut j ∈ acts) ∧
  (st_returned st = true → ∀ i, (i < total_items env)%nat →
     (st_results st !! i = Some None ↔ TimesOut i ∈ acts) ∧
     (TimesOut i ∉ acts →
        invocations i (st_calls st) = 1%nat ∧
        ∃ s, st_results st !! i = Some (Some s) ∧ Returns i (Some s) ∈ acts)).
Proof.
  intros (_ & Hstart & _ & _ & _ & Hlim)%query_all_inv Hrun Htext.
  destruct (async_process_all_start _ _ Hstart) as [[Hnil ->]|(Hne & _ & ->)].
  { apply run_returned_empty in Hrun as [-> ->]. unfold total_items. rewrite Hnil.
    simpl. split; [unfold invocations; simpl; lia|].
    split; [by intros j m e ?%elem_of_nil|]. intros _ i Hi. lia. }
  destruct (run_invariants _ _ _ Hrun) as (Hshape & Hcnt & Hcalls & Hlogs & Htrace).
  destruct (query_run_no_crash _ _ _ Hlim Hrun) as [Hc _].
  pose proof (retry_inv_run _ _ _ Hrun) as Hretry.
  assert (∀ i e, Raises i e ∉ acts) as Hnoraise.
  { intros i e Hin. by apply (proj1 (Forall_forall _ _) Htext) in Hin. }
  split; [|split].
  - intros i. specialize (Hretry i). rewrite (raises_none _ _ Htext) in Hretry.
    destruct (st_tasks st !! i) as [t|]; [|lia].
    destruct (t_phase t) as [| | | | |[e|]|]; simpl in Hretry; lia.
  - intros j m e Hin.
    destruct (logs_errors _ _ Hlogs _ _ _ Hin) as (_ & _ & t & Ht & Hph).
    pose proof (Htrace _ _ Ht) as Hagree. rewrite Hph in Hagree.
    destruct e as [e|]; simpl in Hagree.
    + apply ends_with_in_trace in Hagree. by apply Hnoraise in Hagree.
    + split; [done|]. by apply ends_with_in_trace in Hagree.
  - intros Hret i Hi.
    destruct (returned_slots _ _ _ _ Hrun Hret Hc Hi)
      as (t & Ht & Hterm & Hagree & Hres & _).
    specialize (Hretry i). rewrite Ht, (raises_none _ _ Htext) in Hretry.
    rewrite Hres.
    destruct (t_phase t) as [| | | |v|[[]|]|] eqn:Hph; simpl in *; try done.
    + apply ends_with_in_trace in Hagree as Hin.
      pose proof (proj1 (Forall_forall _ _) Htext _ Hin) as Hv.
      destruct v as [s|]; [|done].
      assert (TimesOut i ∉ acts) as Hno.
      { intros Hto. pose proof (Htrace _ _ Ht) as Hagree'.
        pose proof (timeout_settles acts i (t_phase t) Hagree') as Hsettle.
        rewrite Hph in Hsettle. by specialize (Hsettle eq_refl Hto). }
      split; [split; [done|by intros ?]|]. intros _. split; [done|]. by exists s.
    + apply ends_with_in_trace in Hagree. split; [done|]. by intros Hno.
Qed.

(** One permit, one RUNNING item. *)
Lemma one_worker_one_running env (st0 : state) acts st :
  _async_process_all env = Ok st0 → e_workers env = 1 →
  run env acts st0 = Some st →
  (count_where is_running (st_tasks st) ≤ 1)%nat.
Proof.
  intros Hstart Hw Hrun.
  destruct (async_process_all_start _ _ Hstart) as [[Hnil ->]|(Hne & _ & ->)].
  { apply run_returned_empty in Hrun as [-> ->]. unfold count_where. simpl. lia. }
  destruct (run_invariants _ _ _ Hrun) as (_ & Hcnt & _).
  pose proof (cnt_sem _ _ Hcnt) as Hsem.
  assert (0 ≤ st_sem st) by (eapply sem_nonneg; [|done]; lia). lia.
Qed.

(** The default [batch_size=10] of [query_all] is usable. *)
Lemma default_batch_size_usable (prompts : list string) :
  1 ≤ adjusted_batch_size (Z.of_nat (length prompts)) 10.
Proof. apply adjusted_batch_size_usable; lia. Qed.

(** X17: [query_batch(system_prompt, user_prompts, temperature)] passes
    [temperature] where [query_all] expects [workers]: the worker count is
    [min(32, 4 * cpus)] for temperature 0 and [max(1, int(temperature))]
    otherwise, so for a temperature between 0 and 1 one item runs at a
    time; and every request of the batch is sent with temperature 0,
    whereas [BaseAgent.query] sends the temperature it is given. *)
Theorem query_batch_takes_temperature_for_worker_count
    cpu_count system_prompt user_prompts temperature :
  ∃ env (st0 : state),
    query_batch create str model cpu_count system_prompt user_prompts temperature
      = Ok (process_func create str model system_prompt 0%Qc (Q2Qc (9 # 10)),
            (env, st0)) ∧
    e_items env = (fun prompt => (prompt, None)) <$> user_prompts ∧
    e_workers env =
      (if bool_decide (temperature = 0%Qc)
       then Z.min 32 (cpu_count_or cpu_count 4 * 4)
       else Z.max 1 (Z.quot (Qnum temperature) (Z.pos (Qden temperature)))) ∧
    ((0 < temperature)%Qc → (temperature < 1)%Qc →
       e_workers env = 1 ∧
       ∀ acts st, run env acts st0 = Some st →
         (count_where is_running (st_tasks st) ≤ 1)%nat) ∧
    (∀ item r,
       r ∈ (process_func create str model system_prompt 0%Qc (Q2Qc (9 # 10)) item).1 →
       r_temperature r = 0%Qc) ∧
    (∀ user_prompt r,
       r ∈ (agent_query create str model system_prompt user_prompt temperature).1 →
       r_temperature r = temperature).
Proof.
  destruct (query_all_start cpu_count system_prompt user_prompts
              (Some (PFloat temperature)) 0%Qc (Q2Qc (9 # 10)) None 10 2 3000 ∅
              (default_batch_size_usable user_prompts))
    as (env & st0 & Hq & Hstart & Hitems & Hw & _).
  exists env, st0. split; [done|].
  split.
  { rewrite Hitems. apply list_eq. intros i.
    by rewrite query_items_lookup, list_lookup_fmap. }
  split.
  { rewrite Hw. unfold num_or, num_truthy.
    pose proof (fallback_workers_range cpu_count).
    case_bool_decide; simpl; [lia|done]. }
  split.
  { intros Hpos Hlt. destruct (py_int_fraction _ Hpos Hlt) as [Hint Htruthy].
    assert (e_workers env = 1) as Hone.
    { rewrite Hw. unfold num_or. rewrite Htruthy, Hint. done. }
    split; [done|]. intros acts st. by apply one_worker_one_running. }
  split.
  - intros item r Hr. by apply process_func_requests in Hr as (_ & _ & _ & -> & _).
  - intros user_prompt r. unfold agent_query, query, _query_openai.
    destruct (create _) as [c1|e1]; [|destruct (create _) as [c2|e2]]; simpl;
      intros Hr; repeat (apply elem_of_cons in Hr as [-> | Hr]; [done|]);
      by apply elem_of_nil in Hr.
Qed.


End OracleFacts.

(** ** Worked examples *)

(** C4 on ten items: the five batches of size 2. *)
Lemma sample_batches :
  1 ≤ adjusted_batch_size (Z.of_nat (length (seq 0 10))) 20 ∧
  ∃ batches,
    create_batches (seq 0 10) 20 = Ok batches ∧
    batches !! 4%nat = Some ([8; 9], [8; 9]%nat) ∧
    concat batches.*2 = seq 0 10.
Proof.
  assert (1 ≤ adjusted_batch_size (Z.of_nat (length (seq 0 10))) 20) as Hsize
    by (vm_compute; congruence).
  split; [done|].
  destruct (create_batches_partition (seq 0 10) 20 Hsize)
    as (batches & Hb & _ & _ & _ & Hk & _ & Hcover).
  exists batches. split; [done|]. split; [|done].
  rewrite (Hk 4%nat). reflexivity.
Defined.

(** C3 with [max_retries = 2]: two failures, then the value, in three
    invocations. *)
Lemma sample_retry_then_succeed :
  _make_retry_async sample_flaky 2 10%nat tt = Some (Ret (Some 10%nat), 3).
Proof.
  destruct (retry_wrapper_attempts sample_flaky 2 10%nat tt)
    as (o & n & Hrun & _ & _ & _ & _ & _ & Hsucceed).
  destruct (Hsucceed 3 (Some 10%nat)) as [-> ->]; [lia | reflexivity | | done].
  intros j Hj. exists (Z.to_nat j). unfold sample_flaky.
  destruct (Z.ltb_spec j 3); [done | lia].
Defined.

Lemma sample_call_starts : sample_call = Ok (sample_env, scheduled sample_env).
Proof. vm_compute. reflexivity. Qed.

Lemma sample_trace_runs :
  run sample_env sample_trace (scheduled sample_env) = Some sample_final.
Proof. vm_compute. reflexivity. Qed.







(** C5 on the sample: with two workers, two items in flight and no permit
    left. *)
Lemma sample_two_running :
  run sample_env sample_prefix (scheduled sample_env) = Some sample_midway ∧
  count_where is_running (st_tasks sample_midway) = 2%nat ∧
  st_sem sample_midway = 0 ∧
  Z.of_nat (count_where is_running (st_tasks sample_midway)) ≤ 2.
Proof.
  assert (run sample_env sample_prefix (scheduled sample_env) = Some sample_midway)
    as Hrun by (vm_compute; reflexivity).
  split; [done|]. split; [reflexivity|]. split; [reflexivity|].
  by destruct (running_items_bounded_by_workers
                 (Some 4%positive) sample_items (Some 2) 20 1 5 sample_kwargs
                 sample_env (scheduled sample_env) sample_prefix sample_midway
                 sample_call_starts Hrun) as (Hle & _).
Defined.

(** C6 on the sample keyword arguments. *)
Lemma sample_empty_input :
  ∃ env st0,
    parallel_process (Item := nat) (Val := nat) (Exn := nat)
      (Some 4%positive) [] (Some 2) 20 1 5 sample_kwargs = Ok (env, st0) ∧
    st_results st0 = [] ∧ st_calls st0 = [].
Proof.
  destruct (empty_input_returns_empty (Item := nat) (Val := nat) (Exn := nat)
              (Some 4%positive) (Some 2) 20 1 5 sample_kwargs (Q2Qc 2))
    as (env & st0 & Hpp & _ & Hres & _ & Hcalls & _); [by vm_compute|].
  by exists env, st0.
Defined.



(** C9 on the sample: item 0 returning None and item 0 failing leave the
    same list. *)
Lemma sample_none_is_ambiguous :
  run sample_env sample_trace_none (scheduled sample_env) = Some sample_final_none ∧
  run sample_env sample_trace_poison (scheduled sample_env) = Some sample_final_poison ∧
  st_results sample_final_none = [None; Some 4%nat; Some 5%nat] ∧
  st_results sample_final_none = st_results sample_final_poison.
Proof.
  assert (run sample_env sample_trace_none (scheduled sample_env)
          = Some sample_final_none) as Hrun1 by (vm_compute; reflexivity).
  assert (run sample_env sample_trace_poison (scheduled sample_env)
          = Some sample_final_poison) as Hrun2 by (vm_compute; reflexivity).
  split; [done|]. split; [done|]. split; [reflexivity|].
  destruct (none_success_indistinguishable_from_failure
              sample_env (scheduled sample_env)
              sample_trace_none sample_final_none
              sample_trace_poison sample_final_poison 0%nat)
    as (_ & _ & _ & _ & Hsame);
    [reflexivity | done | reflexivity | done | reflexivity | simpl; lia | reflexivity
    | left; by exists 8%nat |].
  apply Hsame. intros [|[|[|j]]] Hj; try done.
Defined.


(** ** Further worked examples *)

Lemma sample_midway_runs :
  run sample_env sample_prefix (scheduled sample_env) = Some sample_midway.
Proof. vm_compute. reflexivity. Qed.

Lemma sample_env_starts :
  _async_process_all (Val := nat) (Exn := nat) sample_env = Ok (scheduled sample_env).
Proof. reflexivity. Qed.

(** X4 on the sample: item 2 has its value while items 0 and 1 are in
    flight, and keeps it to the end. *)
Lemma sample_settled_slot_kept :
  run sample_env sample_rest sample_midway = Some sample_late ∧
  st_results sample_midway !! 2%nat = Some (Some 5%nat) ∧
  st_results sample_late !! 2%nat = Some (Some 5%nat) ∧
  st_returned sample_late = true.
Proof.
  assert (run sample_env sample_rest sample_midway = Some sample_late) as Hrest
    by (vm_compute; reflexivity).
  split; [done|].
  destruct (settled_item_is_final sample_env (scheduled sample_env)
              sample_prefix sample_midway sample_rest sample_late 2%nat
              {| t_idx := 2; t_item := 30%nat; t_phase := Succeeded (Some 5%nat) |}
              sample_env_starts sample_midway_runs eq_refl eq_refl Hrest)
    as (_ & Hbefore & Hafter & _).
  split; [done|]. split; [done|]. reflexivity.
Defined.


(** X6 on the sample: item 0 raised twice and was invoked twice, item 2
    never raised and was invoked once. *)
Lemma sample_invocations_and_exceptions :
  raises sample_trace 0 = 2%nat ∧ invocations 0 (st_calls sample_final) = 2%nat ∧
  raises sample_trace 2 = 0%nat ∧ invocations 2 (st_calls sample_final) = 1%nat.
Proof.
  destruct (retries_follow_exceptions sample_env (scheduled sample_env)
              sample_trace sample_final 0%nat sample_env_starts sample_trace_runs)
    as (_ & _ & _ & Hfailed).
  destruct (retries_follow_exceptions sample_env (scheduled sample_env)
              sample_trace sample_final 2%nat sample_env_starts sample_trace_runs)
    as (_ & _ & Hdone & _).
  split; [reflexivity|].
  split; [exact (Hfailed _ 8%nat eq_refl eq_refl)|].
  split; [reflexivity|].
  exact (Hdone _ (Some 5%nat) eq_refl eq_refl).
Defined.


(** X8 on the sample with [timeout=0]: item 0 fails by exhausting its
    two attempts. *)
Lemma sample_untimed_failure :
  run sample_env_untimed sample_trace_poison (scheduled sample_env_untimed)
    = Some sample_final_poison ∧
  step sample_env_untimed (TimesOut 0 : action nat nat) (scheduled sample_env_untimed)
    = None ∧
  st_errors sample_final_poison = [(0%nat, 1, ProcessError 8%nat)].
Proof.
  assert (run sample_env_untimed sample_trace_poison (scheduled sample_env_untimed)
          = Some sample_final_poison) as Hrun by (vm_compute; reflexivity).
  split; [done|].
  destruct (timeout_off_when_not_positive sample_env_untimed
              (scheduled sample_env_untimed) sample_trace_poison sample_final_poison)
    as (_ & _ & _ & Hlog); [reflexivity | simpl; lia | done |].
  split; reflexivity.
Defined.

(** X9 on the sample: with both permits taken item 1 cannot pass the
    semaphore. *)
Lemma sample_gate_is_full :
  run sample_env sample_gate (scheduled sample_env) = Some sample_gate_full ∧
  step sample_env (Acquire 1) sample_gate_full = None ∧
  Z.of_nat (count_where is_running (st_tasks sample_gate_full)) = 2.
Proof.
  assert (run sample_env sample_gate (scheduled sample_env) = Some sample_gate_full)
    as Hrun by (vm_compute; reflexivity).
  split; [done|]. split; [reflexivity|].
  destruct (gate_holds_items_only_when_full sample_env (scheduled sample_env)
              sample_gate sample_gate_full 1%nat
              {| t_idx := 1; t_item := 20%nat; t_phase := AtGate |}
              sample_env_starts Hrun eq_refl eq_refl) as [Hfull _].
  destruct (proj1 Hfull eq_refl) as [Hcount|Hraised]; [exact Hcount|].
  by vm_compute in Hraised.
Defined.

(** After the call of [sample_trace_markup] has raised, item 2 is still
    at the semaphore and stays there, although only one of the two
    permits is taken. *)
Lemma sample_gate_after_raise :
  st_raised sample_final_markup = true ∧
  (t_phase <$> st_tasks sample_final_markup !! 2%nat) = Some AtGate ∧
  count_where is_running (st_tasks sample_final_markup) = 1%nat ∧
  e_workers sample_env = 2 ∧
  step sample_env (Acquire 2) sample_final_markup = None.
Proof. by vm_compute. Qed.

(** X10 on the sample with [workers=0]: after the three passages of the
    limiter nothing can happen any more. *)
Lemma sample_zero_workers_hang :
  process_batches (Val := nat) (Exn := nat)
    [([0; 1], [10; 20]%nat); ([2], [30]%nat)] 0 1 5 sample_kwargs
    = Ok (sample_env_starved, scheduled sample_env_starved) ∧
  run sample_env_starved sample_passes (scheduled sample_env_starved) = Some sample_stuck ∧
  st_returned sample_stuck = false ∧
  ∀ a, step sample_env_starved a sample_stuck = None.
Proof.
  assert (process_batches (Val := nat) (Exn := nat)
            [([0; 1], [10; 20]%nat); ([2], [30]%nat)] 0 1 5 sample_kwargs
          = Ok (sample_env_starved, scheduled sample_env_starved)) as Hpb
    by (vm_compute; reflexivity).
  assert (run sample_env_starved sample_passes (scheduled sample_env_starved)
          = Some sample_stuck) as Hrun by (vm_compute; reflexivity).
  split; [done|]. split; [done|].
  destruct (process_batches_with_zero_workers_starves_items
              [([0; 1], [10; 20]%nat); ([2], [30]%nat)] 1 5 sample_kwargs
              sample_env_starved (scheduled sample_env_starved)
              sample_passes sample_stuck Hpb)
    as (_ & _ & _ & Hcase); [done | done |].
  assert (limiter_raises sample_env_starved = false) as Hlr by reflexivity.
  rewrite Hlr in Hcase. destruct Hcase as (Hret & _ & _ & Hstuck).
  split; [done|]. apply Hstuck. by right.
Defined.

(** X1 on ten items: the last of the five batches pairs 8 and 9 with the
    items at these positions. *)
Lemma sample_batch_shapes :
  ∃ batches,
    create_batches (seq 0 10) 20 = Ok batches ∧
    length batches = 5%nat ∧
    ∀ k b, batches !! k = Some b → length b.1 = length b.2 ∧ length b.2 = 2%nat.
Proof.
  eexists. split; [vm_compute; reflexivity|].
  destruct (create_batches_pairs_indices_with_items (seq 0 10) 20 _ eq_refl)
    as [Hshape Hcount].
  split; [reflexivity|].
  intros k b Hk. destruct (Hshape k b Hk) as (_ & _ & Hsame & _).
  split; [done|].
  destruct k as [|[|[|[|[|k]]]]]; simpl in Hk; [injection Hk as <-; reflexivity..|done].
Defined.

(** X2 on the sample: batch sizes 20 and 7 start the same run. *)
Lemma sample_batch_size_irrelevant :
  parallel_process (Val := nat) (Exn := nat)
    (Some 4%positive) sample_items (Some 2) 7 1 5 sample_kwargs = sample_call.
Proof.
  destruct (batch_size_does_not_affect_processing (Val := nat) (Exn := nat)
              (Some 4%positive) sample_items (Some 2) 7 20 1 5 sample_kwargs)
    as [Hsame _]; [by vm_compute | by vm_compute |].
  exact Hsame.
Defined.



Lemma sample_query_starts :
  query_all (Obj := Empty_set) sample_create sample_str "m" (Some 4%positive) "be brief"
    sample_prompts (Some (PInt 2)) 0%Qc (Q2Qc (9 # 10)) None 10 2 3000 sample_kwargs
  = Ok (process_func sample_create sample_str "m" "be brief" 0%Qc (Q2Qc (9 # 10)),
        (sample_query_env, scheduled sample_query_env)).
Proof. vm_compute. reflexivity. Qed.

Lemma sample_query_runs :
  run sample_query_env sample_query_trace (scheduled sample_query_env)
    = Some sample_query_final.
Proof. vm_compute. reflexivity. Qed.

(** X14 on the sample: the rate limit handed to [query_all] makes no
    limiter. *)
Lemma sample_query_unlimited :
  limited sample_query_env = false ∧
  Forall (fun c => c_kwargs c = ∅) (st_calls sample_query_final).
Proof.
  destruct (query_all_drops_keyword_arguments (Obj := Empty_set)
              sample_create sample_str "m" (Some 4%positive) "be brief" sample_prompts
              (Some (PInt 2)) 0%Qc (Q2Qc (9 # 10)) None 10 2 3000 sample_kwargs)
    as (env & st0 & Hq & _ & _ & _ & Hlim & Hruns); [by vm_compute|].
  rewrite sample_query_starts in Hq. injection Hq as <- <-.
  split; [done|].
  apply Forall_forall. intros c Hc.
  by destruct (Hruns _ _ sample_query_runs) as (Hcalls & _); apply Hcalls.
Defined.

(** X15 on the sample: two workers asked for, two used. *)
Lemma sample_query_workers : e_workers sample_query_env = 2.
Proof.
  destruct (query_all_worker_count (Obj := Empty_set)
              sample_create sample_str "m" (Some 4%positive) "be brief" sample_prompts
              (Some (PInt 2)) 0%Qc (Q2Qc (9 # 10)) None 10 2 3000 sample_kwargs
              _ _ _ sample_query_starts)
    as (_ & _ & _ & _ & Hgiven & _).
  exact (Hgiven (PInt 2) eq_refl eq_refl).
Defined.

(** X16 on the sample: each prompt is submitted once; the answered one
    has its text, the one that timed out None. *)
Lemma sample_query_results :
  st_results sample_query_final = [Some "re: hello"%string; None] ∧
  invocations 0 (st_calls sample_query_final) = 1%nat ∧
  (invocations 1 (st_calls sample_query_final) ≤ 1)%nat.
Proof.
  destruct (query_all_never_retries (Obj := Empty_set)
              sample_create sample_str "m" (Some 4%positive) "be brief" sample_prompts
              (Some (PInt 2)) 0%Qc (Q2Qc (9 # 10)) None 10 2 3000 sample_kwargs
              _ _ _ sample_query_trace sample_query_final
              sample_query_starts sample_query_runs)
    as (Honce & _ & _).
  { unfold sample_query_trace. repeat constructor. }
  split; [reflexivity|]. split; [reflexivity|]. apply Honce.
Defined.

(** X19 on the sample: four invocations for three items with two
    attempts each. *)
Lemma sample_invocation_count :
  length (st_calls sample_final) = 4%nat ∧
  Z.of_nat (length (st_calls sample_final)) ≤ 3 * 2.
Proof.
  destruct (invocations_bounded_in_total sample_env (scheduled sample_env)
              sample_trace sample_final sample_env_starts sample_trace_runs)
    as (_ & Htotal & _).
  split; [reflexivity|]. exact Htotal.
Defined.
